(** * The Story Trail Kokkola: progress synchronisation

    A shallow embedding of the progress logic of the application:
    - the Motoko actor (backend canister) that owns one [UserProgress]
      record per caller: [updateProgress], [updateMainProgress],
      [getUserProgress], [initializeLocations];
    - the browser side: the [localStorage] backup cache
      ([saveProgressToLocalStorage], [loadProgressFromLocalStorage],
      [markProgressAsUnsynced], [hasUnsyncedProgress]), the verification
      read-back, [syncUnsyncedProgress], the [useGetUserProgress] query and
      its refetches, the [useUpdateUserProgress] mutation and the
      [retryWithBackoff] executor of the quest popup.

    Motoko [Nat] and the Candid-generated [bigint] fields are unbounded
    naturals, modelled as [N].  A trap of the actor rolls the call back, so a
    trapping call is a [Trap] result that carries the trap text and no new
    state. *)

From Stdlib Require Import NArith String Ascii List Bool Lia.
From Stdlib Require Import DecimalString DecimalN DecimalFacts.
From stdpp Require Import base option list gmap strings.

Local Open Scope N_scope.

(** ** Text primitives shared by both sides *)

(** Decimal text of a natural: Motoko [Nat.toText] and JavaScript
    [BigInt.prototype.toString]. *)
Definition toString (n : N) : string :=
  NilZero.string_of_uint (N.to_uint n).

(** JavaScript [BigInt(s)] on a string: the empty string is [0n], a string of
    decimal digits is its value, anything else raises a SyntaxError ([None]).
    Only the decimal fragment is described: sign, white space and radix
    prefixes never occur in text written by [toString] on a natural. *)
Definition BigInt (s : string) : option N :=
  N.of_uint <$> NilEmpty.uint_of_string s.

(** [String.prototype.startsWith] and [String.prototype.includes]. *)
Fixpoint startsWith (s p : string) : bool :=
  match p, s with
  | EmptyString, _ => true
  | String _ _, EmptyString => false
  | String a p', String b s' => if Ascii.eqb a b then startsWith s' p' else false
  end.

Fixpoint includes (s sub : string) : bool :=
  startsWith s sub ||
  match s with
  | EmptyString => false
  | String _ s' => includes s' sub
  end.

(** ** The actor *)

Module Backend.

Definition Principal := string.

(** Roles of the access-control module. *)
Inductive UserRole := admin | user | guest.

Record Coordinates := {
  latitude : string;   (* Float literal, kept as its decimal text *)
  longitude : string;
}.

Record StoryLocation := {
  id : string;
  title : string;
  content : string;
  audioUrl : option string;
  sequenceNumber : N;
  nextLocationHint : string;
  coordinates : Coordinates;
}.

Record MainProgress := {
  stage1 : bool;
  stage2 : bool;
  stage3 : bool;
}.

Record UserProgress := {
  lastCompletedLocation : N;
  completedLocations : list N;
  currentSequences : list N;
  totalLocations : N;
  mainProgress : MainProgress;
}.

(** The two maps of the actor that the progress logic reads and writes. *)
Record State := {
  userProgress : gmap string UserProgress;
  storyLocations : gmap string StoryLocation;
}.

Definition empty_state : State :=
  {| userProgress := ∅; storyLocations := ∅ |}.

(** Outcome of a call: a value, or a trap with its text. *)
Inductive Result (A : Type) :=
| Ok (a : A)
| Trap (msg : string).
Arguments Ok {A} a.
Arguments Trap {A} msg.

Definition initialProgress : UserProgress :=
  {| lastCompletedLocation := 0;
     completedLocations := [];
     currentSequences := [];
     totalLocations := 3;
     mainProgress := {| stage1 := false; stage2 := false; stage3 := false |} |}.

Definition isLocationCompleted (completedLocations : list N) (sequenceNumber : N) : bool :=
  match find (fun completed => completed =? sequenceNumber) completedLocations with
  | Some _ => true
  | None => false
  end.

Definition location1 : StoryLocation :=
  {| id := "location_1";
     title := "Neristan - The Old Wooden Town";   (* an en dash in the source *)
     content := "Seek out a porcelain dog in a window. What direction is it facing? Does it hint at someone lost or someone returned?";
     audioUrl := Some "ElevenLabs_Text_to_Speech_audio.mp3";
     sequenceNumber := 1;
     nextLocationHint := "Head to the Halkokari skirmish monument";
     coordinates := {| latitude := "63.83993"; longitude := "23.12778" |} |}.

Definition location2 : StoryLocation :=
  {| id := "location_2";
     title := "Halkokari Skirmish Monument";
     content := "Find the memorial/park marker dedicated to the battle. What year did this clash take place?";
     audioUrl := Some "Location_2_audio.mp3";
     sequenceNumber := 2;
     nextLocationHint := "Continue your journey to the next location";
     coordinates := {| latitude := "63.859999"; longitude := "23.118352" |} |}.

Section Actor.

(** [AccessControl.hasPermission accessControlState]: the access-control
    module is imported by the actor; its decision is a parameter here. *)
Variable hasPermission : Principal -> UserRole -> bool.

Definition ensureProgressInitialized (st : State) (u : Principal) : State * UserProgress :=
  match userProgress st !! u with
  | Some progress => (st, progress)
  | None =>
      (if hasPermission u user
       then {| userProgress := <[u := initialProgress]> (userProgress st);
               storyLocations := storyLocations st |}
       else st,
       initialProgress)
  end.

Definition updateMainProgress (st : State) (caller : Principal) (stage : N) : Result (State * unit) :=
  if negb (hasPermission caller user) then
    Trap "Unauthorized: Only authenticated users can update progress"
  else if (stage <? 1) || (3 <? stage) then
    Trap "Invalid stage: Must be between 1 and 3"
  else
    let '(st1, currentProgress) := ensureProgressInitialized st caller in
    let mp := mainProgress currentProgress in
    let updatedMainProgress :=
      if stage =? 1 then {| stage1 := true; stage2 := stage2 mp; stage3 := stage3 mp |}
      else if stage =? 2 then {| stage1 := stage1 mp; stage2 := true; stage3 := stage3 mp |}
      else if stage =? 3 then {| stage1 := stage1 mp; stage2 := stage2 mp; stage3 := true |}
      else mp in
    let updatedProgress :=
      {| lastCompletedLocation := lastCompletedLocation currentProgress;
         completedLocations := completedLocations currentProgress;
         currentSequences := currentSequences currentProgress;
         totalLocations := totalLocations currentProgress;
         mainProgress := updatedMainProgress |} in
    Ok ({| userProgress := <[caller := updatedProgress]> (userProgress st1);
           storyLocations := storyLocations st1 |}, tt).

Definition updateProgress (st : State) (caller : Principal)
    (locationId : string) (workingSequences : list N) : Result (State * UserProgress) :=
  if negb (hasPermission caller user) then
    Trap "Unauthorized: Only authenticated users can save progress to backend. Guests should use localStorage."
  else
    match storyLocations st !! locationId with
    | None => Trap "Invalid location ID: Location not found"
    | Some location =>
        let '(st1, currentProgress) := ensureProgressInitialized st caller in
        let completed := completedLocations currentProgress in
        if isLocationCompleted completed (sequenceNumber location) then
          Ok (st1, currentProgress)
        else if (sequenceNumber location <? 1)
                || (totalLocations currentProgress <? sequenceNumber location) then
          Trap ("Invalid sequence number: Out of range (1-"
                  +:+ toString (totalLocations currentProgress) +:+ ")")
        else
          let newCompletedLocations := completed ++ [sequenceNumber location] in
          let completedCount := length newCompletedLocations in
          let updatedMainProgress :=
            {| stage1 := (1 <=? completedCount)%nat;
               stage2 := (2 <=? completedCount)%nat;
               stage3 := (3 <=? completedCount)%nat |} in
          let newProgress :=
            {| lastCompletedLocation := sequenceNumber location;
               completedLocations := newCompletedLocations;
               currentSequences := workingSequences;
               totalLocations := totalLocations currentProgress;
               mainProgress := updatedMainProgress |} in
          Ok ({| userProgress := <[caller := newProgress]> (userProgress st1);
                 storyLocations := storyLocations st1 |}, newProgress)
    end.

(** A query: the record is returned, the call's own changes to the maps are
    discarded when it ends. *)
Definition getUserProgress (st : State) (caller : Principal) : Result UserProgress :=
  if negb (hasPermission caller user) then
    Trap "Unauthorized: Only authenticated users can retrieve progress from backend"
  else Ok (snd (ensureProgressInitialized st caller)).

Definition initializeLocations (st : State) (caller : Principal) : Result (State * unit) :=
  if negb (hasPermission caller admin) then
    Trap "Unauthorized: Only admins can initialize story locations"
  else
    Ok ({| userProgress := userProgress st;
           storyLocations :=
             <[id location2 := location2]> (<[id location1 := location1]> (storyLocations st)) |},
        tt).

End Actor.

End Backend.

(** ** Histories of calls to the actor *)

Module History.
Import Backend.

(** The calls of the progress interface, with their callers. *)
Inductive Op :=
| OpUpdateProgress (caller : Principal) (locationId : string) (workingSequences : list N)
| OpUpdateMainProgress (caller : Principal) (stage : N)
| OpGetUserProgress (caller : Principal)
| OpInitializeLocations (caller : Principal).

Section Exec.

Variable hasPermission : Principal -> UserRole -> bool.

(** State after one call: a trap rolls back, a query leaves no change. *)
Definition exec (op : Op) (st : State) : State :=
  match op with
  | OpUpdateProgress caller locationId workingSequences =>
      match updateProgress hasPermission st caller locationId workingSequences with
      | Ok (st', _) => st'
      | Trap _ => st
      end
  | OpUpdateMainProgress caller stage =>
      match updateMainProgress hasPermission st caller stage with
      | Ok (st', _) => st'
      | Trap _ => st
      end
  | OpGetUserProgress caller => st
  | OpInitializeLocations caller =>
      match initializeLocations hasPermission st caller with
      | Ok (st', _) => st'
      | Trap _ => st
      end
  end.

Definition run (ops : list Op) (st : State) : State :=
  fold_left (fun st op => exec op st) ops st.

End Exec.

(** The completions of an identity: those of its record, none before the
    record exists. *)
Definition completedOf (st : State) (u : Principal) : list N :=
  match userProgress st !! u with
  | Some progress => completedLocations progress
  | None => []
  end.

Definition isMainProgressOp (op : Op) : bool :=
  match op with
  | OpUpdateMainProgress _ _ => true
  | _ => false
  end.

(** [stageN = (completedLocations.size >= N)] for the three stages. *)
Definition flagsConsistent (progress : UserProgress) : Prop :=
  let count := length (completedLocations progress) in
  let flags := mainProgress progress in
  stage1 flags = (1 <=? count)%nat
  /\ stage2 flags = (2 <=? count)%nat
  /\ stage3 flags = (3 <=? count)%nat.

(** One half of it, [(completedLocations.size >= N)] implies [stageN]: every
    stage reached by the completions is flagged. *)
Definition flagsAtLeast (progress : UserProgress) : Prop :=
  let count := length (completedLocations progress) in
  let flags := mainProgress progress in
  ((1 <=? count)%nat = true -> stage1 flags = true)
  /\ ((2 <=? count)%nat = true -> stage2 flags = true)
  /\ ((3 <=? count)%nat = true -> stage3 flags = true).

(** The record [updateProgress] stores when it adds [sequenceNumber] to
    [current]. *)
Definition withCompletion (current : UserProgress) (sequenceNumber : N)
    (workingSequences : list N) : UserProgress :=
  let newCompletedLocations := (completedLocations current ++ [sequenceNumber])%list in
  {| lastCompletedLocation := sequenceNumber;
     completedLocations := newCompletedLocations;
     currentSequences := workingSequences;
     totalLocations := totalLocations current;
     mainProgress :=
       {| stage1 := (1 <=? length newCompletedLocations)%nat;
          stage2 := (2 <=? length newCompletedLocations)%nat;
          stage3 := (3 <=? length newCompletedLocations)%nat |} |}.

Definition withRecord (st : State) (u : Principal) (progress : UserProgress) : State :=
  {| userProgress := <[u := progress]> (userProgress st);
     storyLocations := storyLocations st |}.

(** The caller's current record: [initialProgress] before the first write. *)
Definition currentOf (st : State) (u : Principal) : UserProgress :=
  default initialProgress (userProgress st !! u).

Definition outOfRange (current : UserProgress) (sequenceNumber : N) : bool :=
  (sequenceNumber <? 1) || (totalLocations current <? sequenceNumber).

Definition outOfRangeMessage (current : UserProgress) : string :=
  "Invalid sequence number: Out of range (1-" +:+ toString (totalLocations current) +:+ ")".

(** Every completion of the record lies in [1, totalLocations]. *)
Definition completionsInRange (progress : UserProgress) : Prop :=
  Forall (fun n => 1 <= n <= totalLocations progress) (completedLocations progress).

(** The canister accepts a write for completion [m] replayed by [caller]: the
    id [location_m] is known, carries the number [m], and [m] is in range for
    the caller. *)
Definition resolves (caller : Principal) (st : State) (m : N) : Prop :=
  exists location,
    storyLocations st !! ("location_" +:+ toString m) = Some location
    /\ sequenceNumber location = m
    /\ outOfRange (currentOf st caller) m = false.

(** [st'] has the location table of [st], and for every identity the same
    [totalLocations] and at least the completions of [st], in order. *)
Definition extends (st st' : State) : Prop :=
  storyLocations st' = storyLocations st
  /\ forall u, completedOf st u `prefix_of` completedOf st' u
             /\ totalLocations (currentOf st' u) = totalLocations (currentOf st u).

(** A property of every stored record. *)
Definition allRecords (P : UserProgress -> Prop) (st : State) : Prop :=
  forall u progress, userProgress st !! u = Some progress -> P progress.

(** Two access-control settings for running the model: every principal holds
    every role, or none does. *)
Definition openAccess (u : Principal) (role : UserRole) : bool := true.
Definition closedAccess (u : Principal) (role : UserRole) : bool := false.

(** A location record numbered [n], for location tables other than the one
    [initializeLocations] loads. *)
Definition locationAt (n : N) : StoryLocation :=
  {| id := "location_" +:+ toString n;
     title := "";
     content := "";
     audioUrl := None;
     sequenceNumber := n;
     nextLocationHint := "";
     coordinates := {| latitude := "0"; longitude := "0" |} |}.

Definition withLocation (location : StoryLocation) (st : State) : State :=
  {| userProgress := userProgress st;
     storyLocations := <[id location := location]> (storyLocations st) |}.

(** The canister after the admin has loaded the two locations. *)
Definition trailState : State :=
  run openAccess [OpInitializeLocations "admin"] empty_state.

End History.

(** ** The bounded-retry executor of the quest popup *)

(** A settled promise: the value it resolved to, or the message of the error
    it rejected with. *)
Inductive Promise (A : Type) :=
| Resolved (a : A)
| Rejected (message : string).
Arguments Resolved {A} a.
Arguments Rejected {A} message.

Module Retry.

Record RetryResult (T : Type) := {
  success : bool;
  result : option T;
  error : option string;
  attempts : nat;
}.
Arguments success {T} _.
Arguments result {T} _.
Arguments error {T} _.
Arguments attempts {T} _.

Section Executor.

(** The executor threads whatever state [W] the operation works on; [sleep]
    is the timer wait between two attempts. *)
Context {W T : Type}.
Variable sleep : N -> W -> W.

(** The [for (attempt = 0; attempt <= maxRetries; attempt++)] loop;
    [remaining] counts the iterations still to run. *)
Fixpoint retryLoop (operation : W -> W * Promise T) (maxRetries : nat)
    (remaining attempt : nat) (lastError : option string) (w : W)
    : W * RetryResult T :=
  match remaining with
  | O =>
      (w, {| success := false; result := None; error := lastError;
             attempts := maxRetries + 1 |})
  | S remaining' =>
      match operation w with
      | (w1, Resolved r) =>
          (w1, {| success := true; result := Some r; error := None;
                  attempts := attempt + 1 |})
      | (w1, Rejected e) =>
          let w2 :=
            if (attempt <? maxRetries)%nat
            then sleep (500 * 2 ^ N.of_nat attempt) w1
            else w1 in
          retryLoop operation maxRetries remaining' (S attempt) (Some e) w2
      end
  end.

Definition retryWithBackoff (operation : W -> W * Promise T) (maxRetries : nat)
    (w : W) : W * RetryResult T :=
  retryLoop operation maxRetries (S maxRetries) 0 None w.

End Executor.

(** An operation that plays a script: each invocation settles with the next
    outcome of the list (the state); it rejects once the script is over. *)
Definition scripted {T : Type} (script : list (Promise T)) : list (Promise T) * Promise T :=
  match script with
  | [] => ([], Rejected "script exhausted")
  | o :: rest => (rest, o)
  end.

(** No timer in a scripted run. *)
Definition noTimer {T : Type} (delay : N) (script : list (Promise T)) : list (Promise T) :=
  script.

End Retry.

(** ** The browser side *)

Module Client.
Import Backend.

(** The object stored (as JSON text) under the [localStorage] key
    ['userProgress']: every integer is held as decimal text. *)
Record ProgressData := {
  stored_lastCompletedLocation : string;
  stored_totalLocations : string;
  stored_completedLocations : list string;
  stored_mainProgress : MainProgress;
  stored_currentSequences : list string;
  stored_timestamp : N;
  stored_synced : bool;
}.

(** What the network does to one actor call. *)
Inductive NetEvent :=
| Deliver                    (* the call reaches the actor and the reply comes back *)
| Drop (message : string)      (* the request never arrives *)
| LostReply (message : string). (* the actor runs the call, the reply is lost *)

Inductive ActorCall :=
| CallUpdateProgress (locationId : string) (workingSequences : list N)
| CallGetUserProgress.

Record World := {
  server : State;                       (* the canister *)
  localStorage : option ProgressData;   (* item 'userProgress' *)
  queryData : option UserProgress;      (* query cache entry ['userProgress'] *)
  now : N;                              (* Date.now() *)
  net : nat -> NetEvent;                (* fate of the n-th actor call *)
  calls : list (ActorCall * bool);      (* actor calls so far, with whether each resolved *)
  timers : list N;                      (* due times of the scheduled refetches *)
}.

Definition set_server (st : State) (w : World) : World :=
  {| server := st; localStorage := localStorage w; queryData := queryData w;
     now := now w; net := net w; calls := calls w; timers := timers w |}.

Definition set_localStorage (item : option ProgressData) (w : World) : World :=
  {| server := server w; localStorage := item; queryData := queryData w;
     now := now w; net := net w; calls := calls w; timers := timers w |}.

Definition setQueryData (data : option UserProgress) (w : World) : World :=
  {| server := server w; localStorage := localStorage w; queryData := data;
     now := now w; net := net w; calls := calls w; timers := timers w |}.

Definition set_net (n : nat -> NetEvent) (w : World) : World :=
  {| server := server w; localStorage := localStorage w; queryData := queryData w;
     now := now w; net := n; calls := calls w; timers := timers w |}.

Definition record_call (c : ActorCall) (resolved : bool) (w : World) : World :=
  {| server := server w; localStorage := localStorage w; queryData := queryData w;
     now := now w; net := net w; calls := (calls w ++ [(c, resolved)])%list;
     timers := timers w |}.

(** [await new Promise(resolve => setTimeout(resolve, delay))]. *)
Definition sleep (delay : N) (w : World) : World :=
  {| server := server w; localStorage := localStorage w; queryData := queryData w;
     now := now w + delay; net := net w; calls := calls w; timers := timers w |}.

(** [setTimeout(async () => { await queryClient.refetchQueries(...) }, delay)]:
    the only callback the progress logic schedules is the refetch of the
    progress query, so a pending timer is the time at which it is due. *)
Definition setTimeout (delay : N) (w : World) : World :=
  {| server := server w; localStorage := localStorage w; queryData := queryData w;
     now := now w; net := net w; calls := calls w;
     timers := (timers w ++ [now w + delay])%list |}.

Definition clearTimers (w : World) : World :=
  {| server := server w; localStorage := localStorage w; queryData := queryData w;
     now := now w; net := net w; calls := calls w; timers := [] |}.

(** [a || b] on a string: the empty string is falsy. *)
Definition orElse (a b : string) : string :=
  if String.eqb a "" then b else a.

(** [error?.message || String(error)]: an [Error] with an empty message prints
    as ["Error"]. *)
Definition errorText (message : string) : string :=
  orElse message "Error".

Definition locationNumberOf (locationId : string) : N :=
  if String.eqb locationId "location_1" then 1
  else if String.eqb locationId "location_2" then 2
  else 3.

Definition mainProgressOf (completedCount : nat) : MainProgress :=
  {| stage1 := (1 <=? completedCount)%nat;
     stage2 := (2 <=? completedCount)%nat;
     stage3 := (3 <=? completedCount)%nat |}.

Definition defaultProgress : UserProgress :=
  {| lastCompletedLocation := 0;
     totalLocations := 3;
     completedLocations := [];
     mainProgress := {| stage1 := false; stage2 := false; stage3 := false |};
     currentSequences := [] |}.

(** *** localStorage helpers *)

Definition progressData (progress : UserProgress) (timestamp : N) (synced : bool) : ProgressData :=
  {| stored_lastCompletedLocation := toString (lastCompletedLocation progress);
     stored_totalLocations := toString (totalLocations progress);
     stored_completedLocations := map toString (completedLocations progress);
     stored_mainProgress := mainProgress progress;
     stored_currentSequences := map toString (currentSequences progress);
     stored_timestamp := timestamp;
     stored_synced := synced |}.

Definition saveProgressToLocalStorage (progress : UserProgress) (w : World) : World * bool :=
  (set_localStorage (Some (progressData progress (now w) true)) w, true).

(** [BigInt(field || fallback)]. *)
Definition BigIntOr (field : string) (fallback : N) : option N :=
  if String.eqb field "" then Some fallback else BigInt field.

(** A [BigInt] that throws is caught: the function answers [null]. *)
Definition loadProgressFromLocalStorage (w : World) : option UserProgress :=
  match localStorage w with
  | None => None
  | Some parsed =>
      last ← BigIntOr (stored_lastCompletedLocation parsed) 0;
      total ← BigIntOr (stored_totalLocations parsed) 3;
      completed ← mapM BigInt (stored_completedLocations parsed);
      sequences ← mapM BigInt (stored_currentSequences parsed);
      Some {| lastCompletedLocation := last;
              totalLocations := total;
              completedLocations := completed;
              mainProgress := stored_mainProgress parsed;
              currentSequences := sequences |}
  end.

Definition set_synced (synced : bool) (timestamp : N) (parsed : ProgressData) : ProgressData :=
  {| stored_lastCompletedLocation := stored_lastCompletedLocation parsed;
     stored_totalLocations := stored_totalLocations parsed;
     stored_completedLocations := stored_completedLocations parsed;
     stored_mainProgress := stored_mainProgress parsed;
     stored_currentSequences := stored_currentSequences parsed;
     stored_timestamp := timestamp;
     stored_synced := synced |}.

Definition markProgressAsUnsynced (w : World) : World :=
  match localStorage w with
  | Some parsed => set_localStorage (Some (set_synced false (now w) parsed)) w
  | None => w
  end.

(** The [parsed.synced = true] write-back of [syncUnsyncedProgress]; the
    timestamp is left as it was. *)
Definition markProgressAsSynced (w : World) : World :=
  match localStorage w with
  | Some parsed => set_localStorage (Some (set_synced true (stored_timestamp parsed) parsed)) w
  | None => w
  end.

Definition hasUnsyncedProgress (w : World) : bool :=
  match localStorage w with
  | None => false
  | Some parsed => negb (stored_synced parsed)
  end.

Section Session.

(** The access-control decision of the canister and the identity the actor
    object of this session is bound to. *)
Variable hasPermission : Principal -> UserRole -> bool.
Variable caller : Principal.

(** *** Calls through the actor object

    The n-th call meets the n-th network event.  A rejected call surfaces the
    trap text of the canister as the message of the thrown error. *)

Definition actor_updateProgress (locationId : string) (workingSequences : list N)
    (w : World) : World * Promise UserProgress :=
  let event := net w (length (calls w)) in
  let call := CallUpdateProgress locationId workingSequences in
  match event with
  | Drop message => (record_call call false w, Rejected message)
  | LostReply message =>
      match updateProgress hasPermission (server w) caller locationId workingSequences with
      | Ok (st, _) => (set_server st (record_call call false w), Rejected message)
      | Trap _ => (record_call call false w, Rejected message)
      end
  | Deliver =>
      match updateProgress hasPermission (server w) caller locationId workingSequences with
      | Ok (st, progress) => (set_server st (record_call call true w), Resolved progress)
      | Trap message => (record_call call false w, Rejected message)
      end
  end.

Definition actor_getUserProgress (w : World) : World * Promise UserProgress :=
  let event := net w (length (calls w)) in
  match event with
  | Drop message | LostReply message =>
      (record_call CallGetUserProgress false w, Rejected message)
  | Deliver =>
      match getUserProgress hasPermission (server w) caller with
      | Ok progress => (record_call CallGetUserProgress true w, Resolved progress)
      | Trap message => (record_call CallGetUserProgress false w, Rejected message)
      end
  end.

(** *** Verification read-back *)

Record Verification := {
  verified : bool;
  verified_progress : option UserProgress;
  verification_error : option string;
}.

(** The [for (attempt = 1; attempt <= maxRetries; attempt++)] loop. *)
Fixpoint verifyLoop (locationNumber : N) (maxRetries : nat)
    (remaining attempt : nat) (w : World) : World * Verification :=
  match remaining with
  | O =>
      (w, {| verified := false; verified_progress := None;
             verification_error :=
               Some "Progress not found in backend after all verification attempts" |})
  | S remaining' =>
      let delay := 300 * 2 ^ N.of_nat (attempt - 1) in
      match actor_getUserProgress (sleep delay w) with
      | (w1, Resolved progress) =>
          if existsb (fun loc => loc =? locationNumber) (completedLocations progress)
          then (w1, {| verified := true; verified_progress := Some progress;
                       verification_error := None |})
          else verifyLoop locationNumber maxRetries remaining' (S attempt) w1
      | (w1, Rejected message) =>
          if (attempt =? maxRetries)%nat
          then (w1, {| verified := false; verified_progress := None;
                       verification_error := Some (orElse message "Verification failed") |})
          else verifyLoop locationNumber maxRetries remaining' (S attempt) w1
      end
  end.

Definition verifyProgressSaved (expectedLocationId : string) (maxRetries : nat)
    (w : World) : World * Verification :=
  verifyLoop (locationNumberOf expectedLocationId) maxRetries maxRetries 1 w.

(** *** Reconciliation *)

(** The write [syncUnsyncedProgress] replays for a cached completion. *)
Definition replayCall (sequences : list N) (locationNum : N) : ActorCall :=
  CallUpdateProgress ("location_" +:+ toString locationNum) sequences.

(** The [for (const locationNum of newLocations)] loop and the write-back
    that follows it. *)
Fixpoint syncLoop (sequences : list N) (newLocations : list N) (w : World) : World * bool :=
  match newLocations with
  | [] => (markProgressAsSynced w, true)
  | locationNum :: rest =>
      let locationId := "location_" +:+ toString locationNum in
      match actor_updateProgress locationId sequences w with
      | (w1, Resolved _) => syncLoop sequences rest w1
      | (w1, Rejected _) => (w1, false)
      end
  end.

Definition newLocationsOf (cachedProgress backendProgress : UserProgress) : list N :=
  List.filter
    (fun loc => negb (existsb (fun bLoc => bLoc =? loc) (completedLocations backendProgress)))
    (completedLocations cachedProgress).

Definition syncUnsyncedProgress (w : World) : World * bool :=
  if negb (hasUnsyncedProgress w) then (w, true)
  else
    match loadProgressFromLocalStorage w with
    | None => (w, true)
    | Some cachedProgress =>
        match actor_getUserProgress w with
        | (w1, Rejected _) => (w1, false)
        | (w1, Resolved backendProgress) =>
            let newLocations := newLocationsOf cachedProgress backendProgress in
            if (length newLocations =? 0)%nat then (markProgressAsSynced w1, true)
            else syncLoop (currentSequences cachedProgress) newLocations w1
        end
    end.

(** *** The progress query *)

(** The [typeof x === 'bigint' ? x : BigInt(x)] guards: the actor's reply
    already carries bigints, so every field is taken as it is. *)
Definition validatedProgress (backendProgress : UserProgress) : UserProgress :=
  {| lastCompletedLocation := lastCompletedLocation backendProgress;
     totalLocations := totalLocations backendProgress;
     completedLocations := completedLocations backendProgress;
     mainProgress := mainProgress backendProgress;
     currentSequences := currentSequences backendProgress |}.

(** The [queryFn] of [useGetUserProgress], with the actor object at hand:
    reconcile, read, cache; on a failed read fall back to the cache, marked
    unsynced, or to the default record.  It never rejects. *)
Definition useGetUserProgress (w : World) : World * UserProgress :=
  let '(w1, _) := syncUnsyncedProgress w in
  match actor_getUserProgress w1 with
  | (w2, Resolved backendProgress) =>
      let validated := validatedProgress backendProgress in
      (fst (saveProgressToLocalStorage validated w2), validated)
  | (w2, Rejected _) =>
      match loadProgressFromLocalStorage w2 with
      | Some cachedProgress => (markProgressAsUnsynced w2, cachedProgress)
      | None => (w2, defaultProgress)
      end
  end.

(** [queryClient.refetchQueries({ queryKey: ['userProgress'] })].  The home
    page mounts the progress query for the whole session, so the query
    function is run again and what it returns is the new query data.  The
    query function never throws, so the [retry: 3] of the query never
    applies. *)
Definition refetchQueries (w : World) : World :=
  let '(w1, progress) := useGetUserProgress w in
  setQueryData (Some progress) w1.

(** [queryClient.invalidateQueries({ queryKey: ['userProgress'] })]: the
    query is marked stale and, being mounted, refetched. *)
Definition invalidateQueries (w : World) : World :=
  refetchQueries w.

(** A scheduled refetch comes due: the clock is at its due time, or later,
    and the progress query is refetched. *)
Definition fireTimer (due : N) (w : World) : World :=
  refetchQueries (sleep (due - now w) w).

(** The session is idle until every scheduled refetch has run. *)
Definition runTimers (w : World) : World :=
  fold_left (fun w due => fireTimer due w) (timers w) (clearTimers w).

(** *** The progress mutation *)

Definition isNetworkError (errorMsg : string) : bool :=
  includes errorMsg "network" || includes errorMsg "timeout"
  || includes errorMsg "fetch" || includes errorMsg "Failed to fetch".

Definition savedLocallyMessage : string :=
  "Network error. Progress saved locally and will sync when connection is restored.".

(** The body of the [try] block. *)
Definition saveAndVerify (locationId : string) (sequences : list N)
    (w : World) : World * Promise UserProgress :=
  match actor_updateProgress locationId sequences w with
  | (w1, Rejected message) => (w1, Rejected message)
  | (w1, Resolved result) =>
      let locationNumber := locationNumberOf locationId in
      let isSavedInResult :=
        existsb (fun loc => loc =? locationNumber) (completedLocations result) in
      if negb isSavedInResult then
        match verifyProgressSaved locationId 3 w1 with
        | (w2, {| verified := true; verified_progress := Some progress |}) =>
            (fst (saveProgressToLocalStorage progress w2), Resolved progress)
        | (w2, verification) =>
            (w2, Rejected
                   (orElse (default "" (verification_error verification))
                      "Failed to verify progress was saved to backend persistent Map"))
        end
      else (fst (saveProgressToLocalStorage result w1), Resolved result)
  end.

(** The network branch of the [catch] block: the completion is added to the
    cached record, unless it is there already. *)
Definition saveLocally (locationId : string) (sequences : list N) (w : World) : World :=
  let currentProgress := default defaultProgress (loadProgressFromLocalStorage w) in
  let locationNumber := locationNumberOf locationId in
  if negb (existsb (fun loc => loc =? locationNumber) (completedLocations currentProgress)) then
    let newCompletedLocations := (completedLocations currentProgress ++ [locationNumber])%list in
    let completedCount := length newCompletedLocations in
    let updatedProgress :=
      {| lastCompletedLocation := locationNumber;
         totalLocations := 3;
         completedLocations := newCompletedLocations;
         mainProgress := mainProgressOf completedCount;
         currentSequences := sequences |} in
    markProgressAsUnsynced (fst (saveProgressToLocalStorage updatedProgress w))
  else w.

Definition mutationFn (locationId : string) (workingSequences : list N)
    (w : World) : World * Promise UserProgress :=
  let sequences := workingSequences in
  match saveAndVerify locationId sequences w with
  | (w1, Resolved progress) => (w1, Resolved progress)
  | (w1, Rejected message) =>
      let errorMsg := errorText message in
      if isNetworkError errorMsg then
        (saveLocally locationId sequences w1, Rejected savedLocallyMessage)
      else if includes errorMsg "Invalid location ID" || includes errorMsg "Location not found" then
        (w1, Rejected "Location not found. The story locations may not be initialized yet.")
      else if includes errorMsg "Unauthorized" then
        (w1, Rejected "Authentication required. Please log in again.")
      else (w1, Rejected ("Failed to update progress: " +:+ errorMsg))
  end.

(** [onMutate]: the optimistic update of the query cache; the snapshot of the
    previous value is the context.  No refetch is in flight when it runs, so
    [cancelQueries] has nothing to cancel. *)
Definition onMutate (locationId : string) (w : World) : World * option UserProgress :=
  let previousProgress := queryData w in
  match previousProgress with
  | Some previous =>
      let locationNumber := locationNumberOf locationId in
      if negb (existsb (fun loc => loc =? locationNumber) (completedLocations previous)) then
        let newCompletedLocations := (completedLocations previous ++ [locationNumber])%list in
        let completedCount := length newCompletedLocations in
        let optimisticProgress :=
          {| lastCompletedLocation := locationNumber;
             completedLocations := newCompletedLocations;
             currentSequences := currentSequences previous;
             totalLocations := totalLocations previous;
             mainProgress := mainProgressOf completedCount |} in
        (setQueryData (Some optimisticProgress) w, previousProgress)
      else (w, previousProgress)
  | None => (w, previousProgress)
  end.

(** [onSuccess]: the data of the mutation is the query data, the awaited
    invalidation refetches the progress query, and a last refetch is
    scheduled 500 ms later. *)
Definition onSuccess (data : UserProgress) (w : World) : World :=
  setTimeout 500 (invalidateQueries (setQueryData (Some data) w)).

Definition onError (message : string) (context : option UserProgress) (w : World) : World :=
  let errorMsg := errorText message in
  if negb (includes errorMsg "Network error") && negb (includes errorMsg "saved locally") then
    match context with
    | Some previous => setQueryData (Some previous) w
    | None => w
    end
  else w.

(** [onSettled], after success and after failure alike.  The invalidation is
    not awaited; the refetch it starts is run here, before the next step of
    the session. *)
Definition onSettled (w : World) : World :=
  invalidateQueries w.

(** [retryDelay]: [Math.min(500 * 2 ** attemptIndex, 2000)]. *)
Definition retryDelay (attemptIndex : nat) : N :=
  N.min (500 * 2 ^ N.of_nat attemptIndex) 2000.

(** The mutation runner of the query library with [retry: 3]: the mutation
    function is run again after a failure until [retry] failures have been
    retried, waiting [retryDelay] in between (500ms, 1000ms, 2000ms). *)
Fixpoint runMutationFn (locationId : string) (workingSequences : list N)
    (retriesLeft failureCount : nat) (w : World) : World * Promise UserProgress :=
  match mutationFn locationId workingSequences w with
  | (w1, Resolved data) => (w1, Resolved data)
  | (w1, Rejected message) =>
      match retriesLeft with
      | O => (w1, Rejected message)
      | S retriesLeft' =>
          runMutationFn locationId workingSequences retriesLeft' (S failureCount)
            (sleep (retryDelay failureCount) w1)
      end
  end.

(** The mutation up to its [onSuccess] or [onError] callback: [onMutate],
    the mutation function with its retries, then the callback of the
    outcome. *)
Definition executeMutation (locationId : string) (workingSequences : list N)
    (w : World) : World * Promise UserProgress :=
  let '(w1, context) := onMutate locationId w in
  match runMutationFn locationId workingSequences 3 0 w1 with
  | (w2, Resolved data) => (onSuccess data w2, Resolved data)
  | (w2, Rejected message) => (onError message context w2, Rejected message)
  end.

(** [mutateAsync]: the promise settles once [onSettled] has run. *)
Definition mutateAsync (locationId : string) (workingSequences : list N)
    (w : World) : World * Promise UserProgress :=
  let '(w1, settled) := executeMutation locationId workingSequences w in
  (onSettled w1, settled).

(** *** The Done button *)

Inductive Toast :=
| ToastInfo (text : string)
| ToastSuccess (attempts : nat)
| ToastWarning (text : string)
| ToastError (text : string).

Record Completion := {
  toast : Toast;
  closed : bool;   (* whether [onClose] was called *)
}.

Definition handleComplete (locationId : option string) (w : World) : World * Completion :=
  match locationId with
  | None => (w, {| toast := ToastInfo "Quest viewed. No progress to save."; closed := true |})
  | Some locationId =>
      match Retry.retryWithBackoff sleep (mutateAsync locationId []) 2 w with
      | (w1, {| Retry.success := true; Retry.result := Some data; Retry.attempts := n |}) =>
          (setTimeout 500 (invalidateQueries (setQueryData (Some data) w1)),
           {| toast := ToastSuccess n; closed := true |})
      | (w1, backendResult) =>
          let errorMsg := orElse (default "" (Retry.error backendResult)) "Unknown error" in
          if includes errorMsg "Network error" || includes errorMsg "saved locally" then
            (w1, {| toast := ToastWarning "Progress saved locally. Will sync when connection is restored.";
                    closed := true |})
          else if includes errorMsg "Unauthorized" || includes errorMsg "Authentication" then
            (w1, {| toast := ToastError "Authentication error. Please log in again."; closed := false |})
          else if includes errorMsg "Location not found" then
            (w1, {| toast := ToastError "Location not found. Please try again or contact support.";
                    closed := false |})
          else
            (w1, {| toast := ToastError ("Failed to save progress after "
                                          +:+ toString (N.of_nat (Retry.attempts backendResult))
                                          +:+ " attempts. Please try again.");
                    closed := false |})
      end
  end.

(** *** Scenarios *)


(** The record the network branch caches for a completion that [cached] does
    not hold yet. *)
Definition locallyCompleted (cached : UserProgress) (locationNumber : N)
    (sequences : list N) : UserProgress :=
  {| lastCompletedLocation := locationNumber;
     totalLocations := 3;
     completedLocations := (completedLocations cached ++ [locationNumber])%list;
     mainProgress := mainProgressOf (length (completedLocations cached ++ [locationNumber]));
     currentSequences := sequences |}.

(** The optimistic entry [onMutate] puts in the query cache. *)
Definition optimistic (previous : UserProgress) (locationNumber : N) : UserProgress :=
  {| lastCompletedLocation := locationNumber;
     completedLocations := (completedLocations previous ++ [locationNumber])%list;
     currentSequences := currentSequences previous;
     totalLocations := totalLocations previous;
     mainProgress := mainProgressOf (length (completedLocations previous ++ [locationNumber])) |}.

End Session.

(** The session goes on from [w] to [w']: the same network script, and a
    canister that was only extended. *)
Definition continues (w w' : World) : Prop :=
  net w' = net w /\ History.extends (server w) (server w').

(** What [localStorage] holds: nothing (the mutation then starts from
    [defaultProgress]) or an entry the application wrote. *)
Definition cacheHolds (w : World) (cached : UserProgress) : Prop :=
  (localStorage w = None /\ cached = defaultProgress)
  \/ exists timestamp synced, localStorage w = Some (progressData cached timestamp synced).

Definition healthy : nat -> NetEvent := fun _ => Deliver.

Definition outage (message : string) : nat -> NetEvent := fun _ => Drop message.

(** A session that starts on canister state [st] with empty caches. *)
Definition freshWorld (st : State) (network : nat -> NetEvent) : World :=
  {| server := st; localStorage := None; queryData := None; now := 0;
     net := network; calls := []; timers := [] |}.

(** The scenario of the trail: alice completes location 1 on a healthy
    network (and the scheduled refetches run), then location 2 during an
    outage; [aliceBackOnline] is the session once the network is back, before
    any reconciliation. *)
Definition aliceAfterFirst : World :=
  runTimers History.openAccess "alice"
    (fst (handleComplete History.openAccess "alice" (Some "location_1")
            (freshWorld History.trailState healthy))).

Definition aliceInOutage : World :=
  set_net (outage "Failed to fetch") aliceAfterFirst.

Definition aliceBackOnline : World :=
  set_net healthy
    (fst (handleComplete History.openAccess "alice" (Some "location_2") aliceInOutage)).

End Client.


(** ** The other entry points of the actor *)

Module Registry.
Import Backend.

Record UserProfile := {
  name : string;
}.

Section Actor.

(** [AccessControl.hasPermission] and [AccessControl.isAdmin] on the
    access-control state of the actor. *)
Variable hasPermission : Principal -> UserRole -> bool.
Variable isAdmin : Principal -> bool.

(** The profile entry points work on the [userProfiles] map alone, which is
    threaded here on its own. *)
Definition getCallerUserProfile (userProfiles : gmap string UserProfile)
    (caller : Principal) : Result (option UserProfile) :=
  if negb (hasPermission caller user) then
    Trap "Unauthorized: Only authenticated users can access backend profiles"
  else Ok (userProfiles !! caller).

Definition getUserProfile (userProfiles : gmap string UserProfile)
    (caller : Principal) (u : Principal) : Result (option UserProfile) :=
  if negb (String.eqb caller u) && negb (isAdmin caller) then
    Trap "Unauthorized: Can only view your own profile"
  else Ok (userProfiles !! u).

Definition saveCallerUserProfile (userProfiles : gmap string UserProfile)
    (caller : Principal) (profile : UserProfile)
    : Result (gmap string UserProfile * unit) :=
  if negb (hasPermission caller user) then
    Trap "Unauthorized: Only authenticated users can save profiles"
  else Ok (<[caller := profile]> userProfiles, tt).

(** The [for ((_, progress) in userProgress.entries())] loop that counts the
    records holding the sequence number. *)
Definition countCompleted (entries : list (string * UserProgress)) (sequenceNumber : N) : N :=
  fold_left
    (fun count entry =>
       if isLocationCompleted (completedLocations (snd entry)) sequenceNumber
       then count + 1 else count)
    entries 0.

Definition getCompletedLocationsCount (st : State) (caller : Principal)
    (locationId : string) : Result N :=
  if negb (hasPermission caller admin) then
    Trap "Unauthorized: Only admins can access analytics"
  else
    match storyLocations st !! locationId with
    | None => Ok 0
    | Some location =>
        Ok (countCompleted (map_to_list (userProgress st)) (sequenceNumber location))
    end.

Definition getStoryLocation (st : State) (caller : Principal) (locationId : string)
    : Result (option StoryLocation) :=
  if negb (hasPermission caller user) then
    Trap "Unauthorized: Only authenticated users can access story content"
  else Ok (storyLocations st !! locationId).

End Actor.

End Registry.

(** ** Invariants of the stored records, as predicates *)

Module Invariant.
Import Backend History.

(** [lastCompletedLocation] is the completion added last, 0 before any. *)
Definition lastIsLatest (progress : UserProgress) : Prop :=
  lastCompletedLocation progress = List.last (completedLocations progress) 0.

(** The location table holds nothing but what [initializeLocations] loads. *)
Definition trailTable (st : State) : Prop :=
  forall locationId location,
    storyLocations st !! locationId = Some location ->
    (locationId = "location_1" /\ location = location1)
    \/ (locationId = "location_2" /\ location = location2).

(** Both trail locations are loaded. *)
Definition trailLoaded (st : State) : Prop :=
  storyLocations st !! "location_1" = Some location1
  /\ storyLocations st !! "location_2" = Some location2.

(** A record of the trail: three locations in total, completions among 1 and
    2, none twice. *)
Definition trailRecord (progress : UserProgress) : Prop :=
  totalLocations progress = 3
  /\ NoDup (completedLocations progress)
  /\ forall m, In m (completedLocations progress) -> m = 1 \/ m = 2.

(** Every stored record belongs to a principal holding the user role. *)
Definition recordsAuthorised (hasPermission : Principal -> UserRole -> bool)
    (st : State) : Prop :=
  forall u progress, userProgress st !! u = Some progress -> hasPermission u user = true.

(** A flag that is set in [before] is set in [after]. *)
Definition flagsKept (before after : MainProgress) : Prop :=
  (stage1 before = true -> stage1 after = true)
  /\ (stage2 before = true -> stage2 after = true)
  /\ (stage3 before = true -> stage3 after = true).

Definition stageFlag (stage : N) (flags : MainProgress) : bool :=
  if stage =? 1 then stage1 flags
  else if stage =? 2 then stage2 flags
  else stage3 flags.

(** The [switch (stage)] of [updateMainProgress]. *)
Definition setStage (stage : N) (flags : MainProgress) : MainProgress :=
  if stage =? 1 then {| stage1 := true; stage2 := stage2 flags; stage3 := stage3 flags |}
  else if stage =? 2 then {| stage1 := stage1 flags; stage2 := true; stage3 := stage3 flags |}
  else if stage =? 3 then {| stage1 := stage1 flags; stage2 := stage2 flags; stage3 := true |}
  else flags.

(** [{ currentProgress with mainProgress = flags }]. *)
Definition withFlags (progress : UserProgress) (flags : MainProgress) : UserProgress :=
  {| lastCompletedLocation := lastCompletedLocation progress;
     completedLocations := completedLocations progress;
     currentSequences := currentSequences progress;
     totalLocations := totalLocations progress;
     mainProgress := flags |}.

Definition validStage (stage : N) : bool :=
  negb ((stage <? 1) || (3 <? stage)).

(** A history on which to run the actor. *)
Definition trailOps : list Op :=
  [OpInitializeLocations "admin"; OpUpdateProgress "alice" "location_2" [];
   OpUpdateMainProgress "bob" 3; OpUpdateProgress "alice" "location_2" [7];
   OpUpdateProgress "alice" "location_1" []].

End Invariant.

(** ** Further sessions of the trail scenario *)

Module Scenarios.
Import Backend Client.

(** A network that delivers every call but the [n]-th, which is dropped. *)
Definition dropping (n : nat) (message : string) : nat -> NetEvent :=
  fun i => if (i =? n)%nat then Drop message else Deliver.

(** The session of [aliceBackOnline] on a flaky network: the write that
    reconciliation replays is dropped, the reads go through. *)
Definition aliceFlaky : World :=
  set_net (dropping (S (length (calls aliceBackOnline))) "Failed to fetch") aliceBackOnline.




(** A fresh session on a network whose failures read ["Network error: ..."],
    with a capital N. *)
Definition resetNetwork : World :=
  freshWorld History.trailState (outage "Network error: connection reset").

End Scenarios.

(** ** BigInt (de)serialisation helpers *)

Module BigIntUtils.

(** The JavaScript values the replacer and the reviver are handed. *)
#[local] Unset Elimination Schemes.
Inductive JsValue :=
| JsBigInt (n : N)
| JsString (s : string)
| JsNumber (text : string)
| JsBool (b : bool)
| JsNull
| JsArray (items : list JsValue)
| JsObject (fields : list (string * JsValue)).
#[local] Set Elimination Schemes.

Definition bigIntReplacer (_key : string) (value : JsValue) : JsValue :=
  match value with
  | JsBigInt n => JsString (toString n)
  | _ => value
  end.

Definition isDigit (c : ascii) : bool :=
  match c with
  | "0" | "1" | "2" | "3" | "4" | "5" | "6" | "7" | "8" | "9" => true
  | _ => false
  end%char.

Fixpoint allDigits (s : string) : bool :=
  match s with
  | EmptyString => true
  | String c s' => isDigit c && allDigits s'
  end.

(** The test [/^\d+$/]: one decimal digit or more, and nothing else. *)
Definition looksNumeric (s : string) : bool :=
  negb (String.eqb s "") && allDigits s.

Definition bigIntFields : list string :=
  ["sequenceNumber"; "lastCompletedLocation"; "totalLocations";
   "completedLocations"; "currentSequences"].

(** [try { return BigInt(text) } catch { return fallback }]. *)
Definition tryBigInt (text : string) (fallback : JsValue) : JsValue :=
  match BigInt text with
  | Some n => JsBigInt n
  | None => fallback
  end.

Definition reviveItem (item : JsValue) : JsValue :=
  match item with
  | JsString s => if looksNumeric s then tryBigInt s item else item
  | _ => item
  end.

Definition bigIntReviver (_key : string) (value : JsValue) : JsValue :=
  match value with
  | JsString s =>
      if looksNumeric s && existsb (fun field => includes _key field) bigIntFields
      then tryBigInt s value
      else value
  | JsArray items => JsArray (map reviveItem items)
  | _ => value
  end.

End BigIntUtils.

(** * Properties of the actor *)

Section BackendFacts.
Import Backend History.

Variable hasPermission : Principal -> UserRole -> bool.

Lemma isLocationCompleted_In (completed : list N) (n : N) :
  isLocationCompleted completed n = true <-> In n completed.
Proof.
  unfold isLocationCompleted. induction completed as [|m l IH]; simpl.
  - split; [discriminate | tauto].
  - destruct (N.eqb_spec m n) as [->|Hne]; [tauto|].
    rewrite IH. split; [tauto | intros [?|?]; [congruence | assumption]].
Qed.

Lemma isLocationCompleted_false (completed : list N) (n : N) :
  isLocationCompleted completed n = false <-> ~ In n completed.
Proof.
  rewrite <- isLocationCompleted_In. destruct (isLocationCompleted completed n); split; congruence.
Qed.

Lemma ensureProgressInitialized_found (st : State) (u : Principal) (progress : UserProgress) :
  userProgress st !! u = Some progress ->
  ensureProgressInitialized hasPermission st u = (st, progress).
Proof. intros H. unfold ensureProgressInitialized. now rewrite H. Qed.

(** A completed location is answered with the stored record, before any
    range check. *)
Lemma updateProgress_completed (st : State) (caller : Principal) (locationId : string)
    (location : StoryLocation) (seqs : list N) (progress : UserProgress) :
  hasPermission caller user = true ->
  storyLocations st !! locationId = Some location ->
  userProgress st !! caller = Some progress ->
  In (sequenceNumber location) (completedLocations progress) ->
  updateProgress hasPermission st caller locationId seqs = Ok (st, progress).
Proof.
  intros Hperm Hloc Hrec Hin. unfold updateProgress.
  rewrite Hperm, Hloc; simpl.
  rewrite (ensureProgressInitialized_found _ _ _ Hrec).
  apply isLocationCompleted_In in Hin. now rewrite Hin.
Qed.

(** How a call of an authorised caller for a known location ends, in terms of
    the caller's current record. *)
Lemma updateProgress_known (st : State) (caller : Principal) (locationId : string)
    (location : StoryLocation) (seqs : list N) :
  hasPermission caller user = true ->
  storyLocations st !! locationId = Some location ->
  let current := currentOf st caller in
  let seq := sequenceNumber location in
  updateProgress hasPermission st caller locationId seqs =
    if isLocationCompleted (completedLocations current) seq
    then Ok (fst (ensureProgressInitialized hasPermission st caller), current)
    else if outOfRange current seq then Trap (outOfRangeMessage current)
    else Ok (withRecord st caller (withCompletion current seq seqs),
             withCompletion current seq seqs).
Proof.
  intros Hperm Hloc. unfold updateProgress, currentOf, ensureProgressInitialized.
  rewrite Hperm, Hloc. cbn [negb].
  destruct (userProgress st !! caller) as [progress|] eqn:Hrec; cbn [default fst].
  - reflexivity.
  - cbn [isLocationCompleted completedLocations initialProgress find].
    unfold outOfRange, withRecord, withCompletion.
    cbn [totalLocations completedLocations initialProgress userProgress storyLocations].
    destruct ((sequenceNumber location <? 1) || (3 <? sequenceNumber location)); [reflexivity|].
    now rewrite insert_insert_eq.
Qed.

Lemma exec_updateProgress_twice (st : State) (caller : Principal) (locationId : string)
    (seqs : list N) :
  exec hasPermission (OpUpdateProgress caller locationId seqs)
    (exec hasPermission (OpUpdateProgress caller locationId seqs) st)
  = exec hasPermission (OpUpdateProgress caller locationId seqs) st.
Proof.
  cbn [exec].
  destruct (hasPermission caller user) eqn:Hperm.
  2:{ assert (Htrap : forall st', exists m,
                 updateProgress hasPermission st' caller locationId seqs = Trap m)
         by (intros st'; unfold updateProgress; rewrite Hperm; eauto).
       destruct (Htrap st) as [m ->]. now destruct (Htrap st) as [m' ->]. }
  destruct (storyLocations st !! locationId) as [location|] eqn:Hloc.
  2:{ assert (Htrap : exists m,
                 updateProgress hasPermission st caller locationId seqs = Trap m)
         by (unfold updateProgress; rewrite Hperm, Hloc; eauto).
       destruct Htrap as [m Hm]. rewrite Hm. now rewrite Hm. }
  rewrite (updateProgress_known st caller locationId location seqs Hperm Hloc).
  cbv zeta.
  destruct (isLocationCompleted _ _) eqn:Hdone.
  - unfold ensureProgressInitialized, currentOf in *.
    destruct (userProgress st !! caller) as [progress|] eqn:Hrec; [|discriminate].
    cbn [fst default] in *. apply isLocationCompleted_In in Hdone.
    now rewrite (updateProgress_completed st caller locationId location seqs progress).
  - destruct (outOfRange _ _) eqn:Hrange.
    + rewrite (updateProgress_known st caller locationId location seqs Hperm Hloc).
      cbv zeta. now rewrite Hdone, Hrange.
    + rewrite (updateProgress_completed _ caller locationId location seqs
                 (withCompletion (currentOf st caller) (sequenceNumber location) seqs));
        try easy.
      * unfold withRecord; cbn [userProgress]. now rewrite lookup_insert_eq.
      * unfold withCompletion; cbn [completedLocations]. apply in_or_app. right. now left.
Qed.

(** Every successful call is one of the two cases of [updateProgress_known]. *)
Lemma updateProgress_Ok_inv (st st' : State) (caller : Principal) (locationId : string)
    (seqs : list N) (progress : UserProgress) :
  updateProgress hasPermission st caller locationId seqs = Ok (st', progress) ->
  hasPermission caller user = true /\
  exists location, storyLocations st !! locationId = Some location /\
    let current := currentOf st caller in
    let seq := sequenceNumber location in
    (In seq (completedLocations current) /\ progress = current
       /\ st' = fst (ensureProgressInitialized hasPermission st caller))
    \/ (~ In seq (completedLocations current) /\ outOfRange current seq = false
        /\ progress = withCompletion current seq seqs
        /\ st' = withRecord st caller progress).
Proof.
  intros H.
  destruct (hasPermission caller user) eqn:Hperm.
  2:{ unfold updateProgress in H. rewrite Hperm in H. discriminate. }
  destruct (storyLocations st !! locationId) as [location|] eqn:Hloc.
  2:{ unfold updateProgress in H. rewrite Hperm, Hloc in H. discriminate. }
  split; [reflexivity|]. exists location. split; [reflexivity|].
  rewrite (updateProgress_known st caller locationId location seqs Hperm Hloc) in H.
  cbv zeta in *.
  destruct (isLocationCompleted _ _) eqn:Hdone.
  - apply isLocationCompleted_In in Hdone. left. now inversion H.
  - apply isLocationCompleted_false in Hdone.
    destruct (outOfRange _ _) eqn:Hrange; [discriminate|]. right. now inversion H.
Qed.

Lemma completedOf_ensure (st : State) (caller u : Principal) :
  completedOf (fst (ensureProgressInitialized hasPermission st caller)) u = completedOf st u.
Proof.
  unfold ensureProgressInitialized, completedOf.
  destruct (userProgress st !! caller) eqn:Hrec; [reflexivity|].
  destruct (hasPermission caller user); [|reflexivity]. cbn [fst userProgress].
  destruct (decide (caller = u)) as [->|Hne].
  - now rewrite lookup_insert_eq, Hrec.
  - now rewrite lookup_insert_ne.
Qed.

Lemma completedOf_withRecord (st : State) (caller u : Principal) (progress : UserProgress) :
  completedOf (withRecord st caller progress) u =
    if decide (caller = u) then completedLocations progress else completedOf st u.
Proof.
  unfold withRecord, completedOf; cbn [userProgress].
  destruct (decide (caller = u)) as [->|Hne].
  - now rewrite lookup_insert_eq.
  - now rewrite lookup_insert_ne.
Qed.

Lemma completedOf_currentOf (st : State) (u : Principal) :
  completedOf st u = completedLocations (currentOf st u).
Proof. unfold completedOf, currentOf. now destruct (userProgress st !! u). Qed.

(** One successful write keeps every identity's completions as a prefix. *)
Lemma updateProgress_prefix (st st' : State) (caller : Principal) (locationId : string)
    (seqs : list N) (progress : UserProgress) (u : Principal) :
  updateProgress hasPermission st caller locationId seqs = Ok (st', progress) ->
  completedOf st u `prefix_of` completedOf st' u.
Proof.
  intros H. apply updateProgress_Ok_inv in H as (_ & location & _ & Hcase).
  destruct Hcase as [(_ & _ & ->) | (_ & _ & -> & ->)].
  - now rewrite completedOf_ensure.
  - rewrite completedOf_withRecord. destruct (decide (caller = u)) as [->|]; [|done].
    rewrite completedOf_currentOf. cbn [withCompletion completedLocations].
    now apply prefix_app_r.
Qed.

Lemma updateMainProgress_completedOf (st st' : State) (caller : Principal) (stage : N)
    (u : Principal) :
  updateMainProgress hasPermission st caller stage = Ok (st', tt) ->
  completedOf st' u = completedOf st u.
Proof.
  unfold updateMainProgress.
  destruct (negb (hasPermission caller user)); [discriminate|].
  destruct ((stage <? 1) || (3 <? stage)); [discriminate|].
  pose proof (completedOf_ensure st caller u) as He.
  pose proof (completedOf_ensure st caller caller) as Hc.
  unfold ensureProgressInitialized in *.
  destruct (userProgress st !! caller) as [progress|] eqn:Hrec; cbn [fst] in *.
  - intros [= <-]. unfold completedOf in *; cbn [userProgress completedLocations].
    destruct (decide (caller = u)) as [->|Hne].
    + now rewrite lookup_insert_eq, Hrec.
    + now rewrite lookup_insert_ne.
  - intros [= <-]. rewrite <- He. unfold completedOf; cbn [userProgress completedLocations].
    destruct (decide (caller = u)) as [->|Hne].
    + rewrite lookup_insert_eq. unfold completedOf in Hc. rewrite Hrec in Hc.
      destruct (hasPermission u user); cbn [userProgress] in *.
      * now rewrite lookup_insert_eq.
      * now rewrite Hrec.
    + now rewrite lookup_insert_ne.
Qed.

Lemma exec_prefix (op : Op) (st : State) (u : Principal) :
  completedOf st u `prefix_of` completedOf (exec hasPermission op st) u.
Proof.
  destruct op as [caller locationId seqs | caller stage | caller | caller]; cbn [exec].
  - destruct (updateProgress _ _ _ _ _) as [[st' progress]|] eqn:H; [|done].
    eapply updateProgress_prefix; eauto.
  - destruct (updateMainProgress _ _ _ _) as [[st' []]|] eqn:H; [|done].
    now rewrite (updateMainProgress_completedOf _ _ _ _ u H).
  - done.
  - unfold initializeLocations. now destruct (negb _).
Qed.

Lemma run_prefix (ops : list Op) (st : State) (u : Principal) :
  completedOf st u `prefix_of` completedOf (run hasPermission ops st) u.
Proof.
  revert st. induction ops as [|op ops IH]; intros st; [done|].
  cbn [run fold_left]. etransitivity; [apply (exec_prefix op)|apply IH].
Qed.

(** *** Invariants of the stored records *)

Lemma flagsConsistent_initial : flagsConsistent initialProgress.
Proof. now repeat split. Qed.

Lemma flagsConsistent_withCompletion (current : UserProgress) (seq : N) (seqs : list N) :
  flagsConsistent (withCompletion current seq seqs).
Proof. now repeat split. Qed.

Lemma allRecords_ensure (P : UserProgress -> Prop) (st : State) (caller : Principal) :
  P initialProgress -> allRecords P st ->
  allRecords P (fst (ensureProgressInitialized hasPermission st caller)).
Proof.
  intros Hinit Hall. unfold ensureProgressInitialized.
  destruct (userProgress st !! caller) eqn:Hrec; [exact Hall|].
  destruct (hasPermission caller user); [|exact Hall].
  intros u progress. cbn [fst userProgress].
  destruct (decide (caller = u)) as [->|Hne].
  - rewrite lookup_insert_eq. now intros [= <-].
  - rewrite lookup_insert_ne by done. apply Hall.
Qed.

Lemma allRecords_withRecord (P : UserProgress -> Prop) (st : State) (caller : Principal)
    (progress : UserProgress) :
  P progress -> allRecords P st -> allRecords P (withRecord st caller progress).
Proof.
  intros Hp Hall u q. unfold withRecord; cbn [userProgress].
  destruct (decide (caller = u)) as [->|Hne].
  - rewrite lookup_insert_eq. now intros [= <-].
  - rewrite lookup_insert_ne by done. apply Hall.
Qed.

Lemma currentOf_allRecords (P : UserProgress -> Prop) (st : State) (u : Principal) :
  P initialProgress -> allRecords P st -> P (currentOf st u).
Proof.
  intros Hinit Hall. unfold currentOf.
  destruct (userProgress st !! u) eqn:Hrec; [eapply Hall; eauto | exact Hinit].
Qed.

Lemma exec_flagsConsistent (op : Op) (st : State) :
  isMainProgressOp op = false ->
  allRecords flagsConsistent st -> allRecords flagsConsistent (exec hasPermission op st).
Proof.
  intros Hop Hall.
  destruct op as [caller locationId seqs | caller stage | caller | caller];
    try discriminate; cbn [exec].
  - destruct (updateProgress _ _ _ _ _) as [[st' progress]|] eqn:H; [|exact Hall].
    apply updateProgress_Ok_inv in H as (_ & location & _ & Hcase).
    destruct Hcase as [(_ & _ & ->) | (_ & _ & -> & ->)].
    + apply allRecords_ensure; [apply flagsConsistent_initial | exact Hall].
    + apply allRecords_withRecord; [apply flagsConsistent_withCompletion | exact Hall].
  - exact Hall.
  - unfold initializeLocations. destruct (negb _); exact Hall.
Qed.

Lemma completionsInRange_initial : completionsInRange initialProgress.
Proof. constructor. Qed.

Lemma completionsInRange_withCompletion (current : UserProgress) (seq : N) (seqs : list N) :
  completionsInRange current -> outOfRange current seq = false ->
  completionsInRange (withCompletion current seq seqs).
Proof.
  unfold completionsInRange, outOfRange, withCompletion; cbn [completedLocations totalLocations].
  intros Hin Hrange. apply orb_false_iff in Hrange as [H1 H2].
  apply N.ltb_ge in H1, H2. apply Forall_app. split; [exact Hin|].
  constructor; [lia | constructor].
Qed.

Lemma exec_completionsInRange (op : Op) (st : State) :
  allRecords completionsInRange st -> allRecords completionsInRange (exec hasPermission op st).
Proof.
  intros Hall.
  destruct op as [caller locationId seqs | caller stage | caller | caller]; cbn [exec].
  - destruct (updateProgress _ _ _ _ _) as [[st' progress]|] eqn:H; [|exact Hall].
    apply updateProgress_Ok_inv in H as (_ & location & _ & Hcase).
    destruct Hcase as [(_ & _ & ->) | (_ & Hrange & -> & ->)].
    + apply allRecords_ensure; [apply completionsInRange_initial | exact Hall].
    + apply allRecords_withRecord; [|exact Hall].
      apply completionsInRange_withCompletion; [|exact Hrange].
      apply currentOf_allRecords; [apply completionsInRange_initial | exact Hall].
  - unfold updateMainProgress.
    destruct (negb _); [exact Hall|]. destruct (_ || _); [exact Hall|].
    pose proof (allRecords_ensure completionsInRange st caller
                  completionsInRange_initial Hall) as Hens.
    assert (Hcur : completionsInRange (snd (ensureProgressInitialized hasPermission st caller))).
    { unfold ensureProgressInitialized.
      destruct (userProgress st !! caller) eqn:Hrec; cbn [snd];
        [eapply Hall; eauto | apply completionsInRange_initial]. }
    destruct (ensureProgressInitialized hasPermission st caller) as [st1 current].
    cbn [fst snd] in *.
    intros u q; cbn [userProgress].
    destruct (decide (caller = u)) as [->|Hne].
    + rewrite lookup_insert_eq. intros [= <-]. exact Hcur.
    + rewrite lookup_insert_ne by done. apply Hens.
  - exact Hall.
  - unfold initializeLocations. destruct (negb _); exact Hall.
Qed.

(** Whatever the location table, every state the calls reach from an empty
    progress map keeps all completions in range. *)
Lemma run_completionsInRange (ops : list Op) (st : State) :
  allRecords completionsInRange st ->
  allRecords completionsInRange (run hasPermission ops st).
Proof.
  revert st. induction ops as [|op ops IH]; intros st Hall; [exact Hall|].
  cbn [run fold_left]. apply IH, exec_completionsInRange, Hall.
Qed.

(** *** The claims about the authoritative write *)

(** C3 (idempotence of the authoritative write).  For an authorised caller
    and a known location whose sequence number is already among the caller's
    completions, [updateProgress] answers with the stored record and leaves
    the state as it is; and whatever the arguments, running the same call a
    second time changes nothing: the state, hence every identity's
    completions, is the one the first call left. *)
Theorem updateProgress_idempotent (st : State) (caller : Principal) (locationId : string)
    (seqs : list N) :
  (forall location progress,
      hasPermission caller user = true ->
      storyLocations st !! locationId = Some location ->
      userProgress st !! caller = Some progress ->
      In (sequenceNumber location) (completedLocations progress) ->
      updateProgress hasPermission st caller locationId seqs = Ok (st, progress))
  /\ let once := exec hasPermission (OpUpdateProgress caller locationId seqs) st in
     let twice := exec hasPermission (OpUpdateProgress caller locationId seqs) once in
     twice = once /\ forall u, completedOf twice u = completedOf once u.
Proof.
  split.
  - intros location progress. apply updateProgress_completed.
  - cbv zeta. rewrite exec_updateProgress_twice. now split.
Qed.

(** C10 (the duplicate check precedes the range check).  When the sequence
    number of the location is already among the caller's completions, an
    authorised call returns the unchanged record, wherever the number lies
    with respect to [1, totalLocations]; and for no caller does such a call
    end in the out-of-range trap. *)
Theorem updateProgress_completed_before_range (st : State) (caller : Principal)
    (locationId : string) (location : StoryLocation) (seqs : list N)
    (progress : UserProgress) :
  storyLocations st !! locationId = Some location ->
  userProgress st !! caller = Some progress ->
  In (sequenceNumber location) (completedLocations progress) ->
  (hasPermission caller user = true ->
     updateProgress hasPermission st caller locationId seqs = Ok (st, progress))
  /\ updateProgress hasPermission st caller locationId seqs
       <> Trap (outOfRangeMessage progress).
Proof.
  intros Hloc Hrec Hin.
  destruct (hasPermission caller user) eqn:Hperm.
  - rewrite (updateProgress_completed st caller locationId location seqs progress) by easy.
    now split.
  - split; [discriminate|]. unfold updateProgress. rewrite Hperm. cbn [negb].
    unfold outOfRangeMessage. discriminate.
Qed.

(** C4 (out-of-range rejection).  In a state whose records hold in-range
    completions only (every reachable one, [run_completionsInRange]), an
    authorised write for a known location whose sequence number is below 1 or
    above [totalLocations] traps with the out-of-range text, and the state,
    the caller's record included, stays as it was. *)
Theorem updateProgress_out_of_range (st : State) (caller : Principal) (locationId : string)
    (location : StoryLocation) (seqs : list N) :
  hasPermission caller user = true ->
  storyLocations st !! locationId = Some location ->
  allRecords completionsInRange st ->
  (sequenceNumber location < 1
   \/ totalLocations (currentOf st caller) < sequenceNumber location) ->
  updateProgress hasPermission st caller locationId seqs
    = Trap (outOfRangeMessage (currentOf st caller))
  /\ exec hasPermission (OpUpdateProgress caller locationId seqs) st = st.
Proof.
  intros Hperm Hloc Hall Hout.
  assert (Hcur : completionsInRange (currentOf st caller))
    by (apply currentOf_allRecords; [apply completionsInRange_initial | exact Hall]).
  assert (Hnot : isLocationCompleted (completedLocations (currentOf st caller))
                   (sequenceNumber location) = false).
  { apply isLocationCompleted_false. intros Hin.
    unfold completionsInRange in Hcur. rewrite Forall_forall in Hcur.
    apply list_elem_of_In, Hcur in Hin. lia. }
  assert (Hrange : outOfRange (currentOf st caller) (sequenceNumber location) = true).
  { unfold outOfRange. apply orb_true_iff.
    destruct Hout as [H|H]; [left | right]; now apply N.ltb_lt. }
  cbn [exec].
  rewrite (updateProgress_known st caller locationId location seqs Hperm Hloc).
  cbv zeta. now rewrite Hnot, Hrange.
Qed.

End BackendFacts.

(** ** The actor on concrete states *)

Section BackendExamples.
Import Backend History.

Example trail_first_completion :
  completedOf (run openAccess [OpUpdateProgress "alice" "location_1" []] trailState) "alice"
  = [1].
Proof. vm_compute. reflexivity. Qed.

Example trail_duplicate_completion :
  completedOf
    (run openAccess [OpUpdateProgress "alice" "location_1" [];
                     OpUpdateProgress "alice" "location_1" []] trailState) "alice"
  = [1].
Proof. vm_compute. reflexivity. Qed.

Lemma updateProgress_idempotent_witness :
  let st := run openAccess [OpUpdateProgress "alice" "location_1" []] trailState in
  updateProgress openAccess st "alice" "location_1" []
    = Ok (st, withCompletion initialProgress 1 []).
Proof.
  cbv zeta.
  apply (proj1 (updateProgress_idempotent openAccess _ "alice" "location_1" []) location1).
  - reflexivity.
  - vm_compute. reflexivity.
  - vm_compute. reflexivity.
  - left. reflexivity.
Defined.

(** A record that already holds the out-of-range number 7. *)
Lemma updateProgress_completed_before_range_witness :
  let stray :=
    {| lastCompletedLocation := 7; completedLocations := [7]; currentSequences := [];
       totalLocations := 3;
       mainProgress := {| stage1 := true; stage2 := false; stage3 := false |} |} in
  let st := withLocation (locationAt 7) (withRecord trailState "alice" stray) in
  updateProgress openAccess st "alice" "location_7" [] = Ok (st, stray).
Proof.
  cbv zeta.
  refine (proj1 (updateProgress_completed_before_range openAccess _ "alice" "location_7"
                   (locationAt 7) [] _ _ _ _) _).
  - vm_compute. reflexivity.
  - vm_compute. reflexivity.
  - left. reflexivity.
  - reflexivity.
Defined.

Lemma updateProgress_out_of_range_witness :
  let st := run openAccess [OpUpdateProgress "alice" "location_1" []]
              (withLocation (locationAt 4) (withLocation (locationAt 0) trailState)) in
  (updateProgress openAccess st "alice" "location_4" []
     = Trap "Invalid sequence number: Out of range (1-3)"
   /\ exec openAccess (OpUpdateProgress "alice" "location_4" []) st = st)
  /\ (updateProgress openAccess st "alice" "location_0" []
       = Trap "Invalid sequence number: Out of range (1-3)"
     /\ exec openAccess (OpUpdateProgress "alice" "location_0" []) st = st).
Proof.
  intros st.
  assert (Hrange : allRecords completionsInRange st).
  { apply run_completionsInRange. intros u progress H. vm_compute in H. discriminate. }
  assert (Hmsg : outOfRangeMessage (currentOf st "alice")
                 = "Invalid sequence number: Out of range (1-3)")
    by (vm_compute; reflexivity).
  rewrite <- Hmsg. split.
  - apply (updateProgress_out_of_range openAccess st "alice" "location_4" (locationAt 4) []).
    + reflexivity.
    + vm_compute. reflexivity.
    + exact Hrange.
    + right. vm_compute. reflexivity.
  - apply (updateProgress_out_of_range openAccess st "alice" "location_0" (locationAt 0) []).
    + reflexivity.
    + vm_compute. reflexivity.
    + exact Hrange.
    + left. vm_compute. reflexivity.
Defined.

(** C2 does not hold of [updateMainProgress]: on the empty store,
    [updateMainProgress 3] by an authorised caller leaves a record with
    [stage3] set and no completion. *)
Lemma updateMainProgress_sets_flag_without_completion :
  userProgress (run openAccess [OpUpdateMainProgress "alice" 3] empty_state) !! "alice"
    = Some {| lastCompletedLocation := 0; completedLocations := []; currentSequences := [];
              totalLocations := 3;
              mainProgress := {| stage1 := false; stage2 := false; stage3 := true |} |}
  /\ ~ allRecords flagsConsistent
        (run openAccess [OpUpdateMainProgress "alice" 3] empty_state).
Proof.
  assert (Hrec : userProgress (run openAccess [OpUpdateMainProgress "alice" 3] empty_state)
                   !! "alice"
                 = Some {| lastCompletedLocation := 0; completedLocations := [];
                           currentSequences := []; totalLocations := 3;
                           mainProgress := {| stage1 := false; stage2 := false;
                                              stage3 := true |} |})
    by (vm_compute; reflexivity).
  split; [exact Hrec|].
  intros Hall. destruct (Hall _ _ Hrec) as (_ & _ & H3). discriminate H3.
Qed.

End BackendExamples.

(** * The retry executor *)

Section RetryFacts.
Import Retry.

Context {T : Type}.

Local Abbreviation idle := (@noTimer T).

(** A run of rejections moves the loop on by as many attempts, whatever the
    error messages are. *)
Lemma retryLoop_rejections (maxRetries : nat) (errors : list string) :
  forall (remaining attempt : nat) (lastError : option string) (script : list (Promise T)),
    retryLoop idle scripted maxRetries (length errors + remaining) attempt lastError
      (map Rejected errors ++ script)
    = retryLoop idle scripted maxRetries remaining (attempt + length errors)
        (from_option Some lastError (last errors)) script.
Proof.
  induction errors as [|e errors IH]; intros remaining attempt lastError script.
  - cbn [length map app Nat.add last from_option]. now rewrite Nat.add_0_r.
  - cbn [length map app Nat.add retryLoop scripted].
    replace (if (attempt <? maxRetries)%nat
             then idle (500 * 2 ^ N.of_nat attempt) (map Rejected errors ++ script)
             else map Rejected errors ++ script)
      with (map Rejected errors ++ script)%list
      by (now destruct (attempt <? maxRetries)%nat).
    rewrite IH. f_equal; [lia|].
    destruct errors as [|e' errors]; [reflexivity|].
    change (last (e :: e' :: errors)) with (last (e' :: errors)).
    destruct (last (e' :: errors)) eqn:Hlast; [reflexivity|].
    now apply last_None in Hlast.
Qed.

(** C5 (retry discipline).  The executor does not look at the kind of
    failure: each
    rejection, whatever its message, uses up one attempt.  With at most
    [maxRetries] rejections before a success it returns that success and
    counts the rejections plus one; after [maxRetries + 1] rejections it
    returns the last error and stops. *)
Theorem retryWithBackoff_counts_every_failure (maxRetries : nat) (errors : list string)
    (rest : list (Promise T)) :
  (forall v,
      (length errors <= maxRetries)%nat ->
      retryWithBackoff idle scripted maxRetries (map Rejected errors ++ Resolved v :: rest)
      = (rest, {| success := true; result := Some v; error := None;
                  attempts := length errors + 1 |}))
  /\ (forall e,
        length errors = maxRetries ->
        retryWithBackoff idle scripted maxRetries (map Rejected (errors ++ [e]) ++ rest)
        = (rest, {| success := false; result := None; error := Some e;
                    attempts := maxRetries + 1 |})).
Proof.
  split.
  - intros v Hlen. unfold retryWithBackoff.
    replace (S maxRetries) with (length errors + S (maxRetries - length errors))%nat by lia.
    rewrite retryLoop_rejections. reflexivity.
  - intros e Hlen. unfold retryWithBackoff.
    replace (S maxRetries) with (length (errors ++ [e]) + 0)%nat
      by (rewrite length_app; cbn [length]; lia).
    rewrite retryLoop_rejections. cbn [retryLoop].
    now rewrite last_snoc.
Qed.

End RetryFacts.

Lemma retryWithBackoff_counts_every_failure_witness :
  Retry.retryWithBackoff Retry.noTimer Retry.scripted 2
    [Rejected "Unauthorized: Only authenticated users can save progress to backend.";
     Rejected "Failed to fetch"; Resolved 7%nat; Rejected "unused"]
  = ([Rejected "unused"],
     {| Retry.success := true; Retry.result := Some 7%nat; Retry.error := None;
        Retry.attempts := 3 |})
  /\ Retry.retryWithBackoff Retry.noTimer Retry.scripted 2
       [Rejected "Failed to fetch"; Rejected "Invalid location ID: Location not found";
        Rejected "Unauthorized"; Resolved 7%nat]
     = ([Resolved 7%nat],
        {| Retry.success := false; Retry.result := None; Retry.error := Some "Unauthorized";
           Retry.attempts := 3 |}).
Proof.
  split.
  - apply (proj1 (retryWithBackoff_counts_every_failure 2
                    ["Unauthorized: Only authenticated users can save progress to backend.";
                     "Failed to fetch"] [Rejected "unused"]) 7%nat).
    cbn [length]. lia.
  - apply (proj2 (retryWithBackoff_counts_every_failure 2
                    ["Failed to fetch"; "Invalid location ID: Location not found"]
                    [Resolved 7%nat]) "Unauthorized").
    reflexivity.
Defined.

(** C5 does not hold of terminal failures: a caller without the user role
    presses Done on a
    healthy network: the write traps with the authorization text, and the
    executor still runs all three of its attempts (twelve writes to the actor
    with the library's own retries, each attempt followed by the refused read
    of the refetch that [onSettled] starts) before the authentication error
    is shown. *)
Lemma terminal_failure_is_retried :
  let w0 := Client.freshWorld History.trailState Client.healthy in
  let run := Retry.retryWithBackoff Client.sleep
               (Client.mutateAsync History.closedAccess "mallory" "location_1" []) 2 w0 in
  let attempt := (repeat (Client.CallUpdateProgress "location_1" [], false) 4
                    ++ [(Client.CallGetUserProgress, false)])%list in
  Retry.success (snd run) = false
  /\ Retry.error (snd run) = Some "Authentication required. Please log in again."
  /\ Retry.attempts (snd run) = 3%nat
  /\ Client.calls (fst run) = (attempt ++ attempt ++ attempt)%list
  /\ List.filter (fun call => match fst call with
                              | Client.CallUpdateProgress _ _ => true
                              | Client.CallGetUserProgress => false
                              end) (Client.calls (fst run))
     = repeat (Client.CallUpdateProgress "location_1" [], false) 12
  /\ snd (Client.handleComplete History.closedAccess "mallory" (Some "location_1") w0)
     = {| Client.toast := Client.ToastError "Authentication error. Please log in again.";
          Client.closed := false |}.
Proof. vm_compute. repeat split. Qed.

(** * The local cache *)

Section CacheFacts.
Import Backend Client.

Lemma toString_digits (n : N) :
  toString n = NilEmpty.string_of_uint (N.to_uint n) /\ N.to_uint n <> Decimal.Nil.
Proof.
  unfold toString. destruct n as [|p]; [split; [reflexivity | discriminate]|].
  cbn [N.to_uint]. pose proof (DecimalPos.Unsigned.to_uint_nonnil p) as Hnil.
  split; [|exact Hnil]. unfold NilZero.string_of_uint.
  now destruct (Pos.to_uint p).
Qed.

Lemma BigInt_toString (n : N) : BigInt (toString n) = Some n.
Proof.
  destruct (toString_digits n) as [-> _]. unfold BigInt.
  rewrite NilEmpty.usu. cbn [fmap option_fmap option_map].
  now rewrite DecimalN.Unsigned.of_to.
Qed.

Lemma toString_nonempty (n : N) : String.eqb (toString n) "" = false.
Proof.
  destruct (toString_digits n) as [-> Hnil].
  now destruct (N.to_uint n).
Qed.

Lemma toString_inj (n m : N) : toString n = toString m -> n = m.
Proof.
  intros H. apply (f_equal BigInt) in H. rewrite !BigInt_toString in H. now inversion H.
Qed.

Lemma BigIntOr_toString (n fallback : N) : BigIntOr (toString n) fallback = Some n.
Proof. unfold BigIntOr. rewrite toString_nonempty. apply BigInt_toString. Qed.

Lemma mapM_BigInt_toString (l : list N) : mapM BigInt (map toString l) = Some l.
Proof.
  induction l as [|n l IH]; [reflexivity|].
  cbn [map mapM]. rewrite BigInt_toString. cbn. rewrite IH. reflexivity.
Qed.

Lemma load_progressData (w : World) (progress : UserProgress) (timestamp : N) (synced : bool) :
  localStorage w = Some (progressData progress timestamp synced) ->
  loadProgressFromLocalStorage w = Some progress.
Proof.
  intros H. unfold loadProgressFromLocalStorage. rewrite H.
  cbn [progressData stored_lastCompletedLocation stored_totalLocations
       stored_completedLocations stored_currentSequences stored_mainProgress].
  rewrite !BigIntOr_toString, !mapM_BigInt_toString. cbn.
  now destruct progress.
Qed.

(** C9 (numeric-safe round trip).  The decimal text of a natural, however
    large, reads back as the same natural; and loading after saving returns
    the saved record, every field of it. *)
Theorem load_after_save :
  (forall n : N, BigInt (toString n) = Some n)
  /\ (forall (progress : UserProgress) (w : World),
        snd (saveProgressToLocalStorage progress w) = true
        /\ loadProgressFromLocalStorage (fst (saveProgressToLocalStorage progress w))
           = Some progress).
Proof.
  split; [exact BigInt_toString|].
  intros progress w. split; [reflexivity|].
  now apply (load_progressData _ progress (now w) true).
Qed.

Example load_after_save_large :
  let big := {| lastCompletedLocation := 9007199254740993;
                completedLocations := [1; 9007199254740993; 340282366920938463463374607431768211457];
                currentSequences := [18446744073709551617];
                totalLocations := 3;
                mainProgress := {| stage1 := true; stage2 := true; stage3 := true |} |} in
  stored_completedLocations
    (progressData big 0 true)
  = ["1"; "9007199254740993"; "340282366920938463463374607431768211457"]
  /\ loadProgressFromLocalStorage
       (fst (saveProgressToLocalStorage big (freshWorld empty_state healthy))) = Some big.
Proof. vm_compute. split; reflexivity. Qed.

End CacheFacts.

(** * The session: calls, reconciliation, completion under an outage *)

Section ExtendsFacts.
Import Backend History.

Variable hasPermission : Principal -> UserRole -> bool.

Lemma extends_refl (st : State) : extends st st.
Proof. split; [reflexivity|]. intros u. now split. Qed.

Lemma extends_trans (st1 st2 st3 : State) :
  extends st1 st2 -> extends st2 st3 -> extends st1 st3.
Proof.
  intros [Hl1 H1] [Hl2 H2]. split; [congruence|].
  intros u. destruct (H1 u) as [Hp1 Ht1], (H2 u) as [Hp2 Ht2].
  split; [etransitivity; eauto | congruence].
Qed.

Lemma currentOf_ensure (st : State) (caller u : Principal) :
  currentOf (fst (ensureProgressInitialized hasPermission st caller)) u = currentOf st u.
Proof.
  unfold ensureProgressInitialized, currentOf.
  destruct (userProgress st !! caller) eqn:Hrec; [reflexivity|].
  destruct (hasPermission caller user); [|reflexivity]. cbn [fst userProgress].
  destruct (decide (caller = u)) as [->|Hne].
  - now rewrite lookup_insert_eq, Hrec.
  - now rewrite lookup_insert_ne.
Qed.

Lemma currentOf_withRecord (st : State) (caller u : Principal) (progress : UserProgress) :
  currentOf (withRecord st caller progress) u =
    if decide (caller = u) then progress else currentOf st u.
Proof.
  unfold withRecord, currentOf; cbn [userProgress].
  destruct (decide (caller = u)) as [->|Hne].
  - now rewrite lookup_insert_eq.
  - now rewrite lookup_insert_ne.
Qed.

Lemma storyLocations_ensure (st : State) (caller : Principal) :
  storyLocations (fst (ensureProgressInitialized hasPermission st caller)) = storyLocations st.
Proof.
  unfold ensureProgressInitialized.
  destruct (userProgress st !! caller); [reflexivity|].
  now destruct (hasPermission caller user).
Qed.

(** A successful write extends the state. *)
Lemma updateProgress_extends (st st' : State) (caller : Principal) (locationId : string)
    (seqs : list N) (progress : UserProgress) :
  updateProgress hasPermission st caller locationId seqs = Ok (st', progress) ->
  extends st st'.
Proof.
  intros H. split; [|intros u; split].
  - apply updateProgress_Ok_inv in H as (_ & location & _ & Hcase).
    destruct Hcase as [(_ & _ & ->) | (_ & _ & -> & ->)];
      [apply storyLocations_ensure | reflexivity].
  - eapply updateProgress_prefix; eauto.
  - apply updateProgress_Ok_inv in H as (_ & location & _ & Hcase).
    destruct Hcase as [(_ & _ & ->) | (_ & _ & -> & ->)].
    + now rewrite currentOf_ensure.
    + rewrite currentOf_withRecord. now destruct (decide (caller = u)) as [->|].
Qed.

Lemma extends_completed (st st' : State) (u : Principal) (m : N) :
  extends st st' -> In m (completedOf st u) -> In m (completedOf st' u).
Proof.
  intros [_ H] Hin. destruct (H u) as [[suffix ->] _]. apply in_or_app. now left.
Qed.

Lemma extends_resolves (st st' : State) (caller : Principal) (m : N) :
  extends st st' -> resolves caller st m -> resolves caller st' m.
Proof.
  intros [Hloc H] (location & Hfind & Hseq & Hrange).
  exists location. rewrite Hloc. repeat split; try assumption.
  unfold outOfRange in *. destruct (H caller) as [_ ->]. exact Hrange.
Qed.

(** The canister accepts a write it resolves, and holds the completion
    afterwards. *)
Lemma updateProgress_resolves (st : State) (caller : Principal) (m : N) (seqs : list N) :
  hasPermission caller user = true ->
  resolves caller st m ->
  exists st' progress,
    updateProgress hasPermission st caller ("location_" +:+ toString m) seqs
      = Ok (st', progress)
    /\ In m (completedOf st' caller).
Proof.
  intros Hperm (location & Hfind & Hseq & Hrange).
  rewrite (updateProgress_known hasPermission st caller _ location seqs Hperm Hfind).
  cbv zeta. rewrite Hseq.
  destruct (isLocationCompleted _ _) eqn:Hdone.
  - eexists _, _. split; [reflexivity|].
    rewrite completedOf_ensure, completedOf_currentOf. now apply isLocationCompleted_In.
  - rewrite Hrange. eexists _, _. split; [reflexivity|].
    rewrite completedOf_withRecord. destruct (decide (caller = caller)); [|done].
    cbn [withCompletion completedLocations]. apply in_or_app. right. now left.
Qed.

End ExtendsFacts.

Section SessionFacts.
Import Backend History Client.

Variable hasPermission : Principal -> UserRole -> bool.
Variable caller : Principal.

Local Abbreviation resolved r :=
  (match r with Resolved _ => true | Rejected _ => false end).

Lemma existsb_eqb_In (l : list N) (n : N) :
  existsb (fun loc => loc =? n) l = true <-> In n l.
Proof.
  rewrite existsb_exists. split.
  - intros (x & Hin & Heq). apply N.eqb_eq in Heq. now subst.
  - intros Hin. exists n. split; [exact Hin | apply N.eqb_refl].
Qed.

Lemma continues_refl (w : World) : continues w w.
Proof. split; [reflexivity | apply extends_refl]. Qed.

Lemma continues_trans (w1 w2 w3 : World) :
  continues w1 w2 -> continues w2 w3 -> continues w1 w3.
Proof.
  intros [Hn1 He1] [Hn2 He2]. split; [congruence | eapply extends_trans; eauto].
Qed.


(** *** One call through the actor *)

Lemma actor_updateProgress_frame (locationId : string) (seqs : list N) (w w' : World)
    (r : Promise UserProgress) :
  actor_updateProgress hasPermission caller locationId seqs w = (w', r) ->
  localStorage w' = localStorage w /\ queryData w' = queryData w /\ now w' = now w
  /\ continues w w'
  /\ calls w' = (calls w ++ [(CallUpdateProgress locationId seqs, resolved r)])%list.
Proof.
  unfold actor_updateProgress, continues.
  destruct (net w (length (calls w))) as [|message|message];
    destruct (updateProgress hasPermission (server w) caller locationId seqs)
      as [[st progress]|trap] eqn:Hupdate;
    intros [= <- <-]; cbn; repeat split;
    first [ apply extends_refl | eapply updateProgress_extends; eauto ].
Qed.

Lemma actor_getUserProgress_frame (w w' : World) (r : Promise UserProgress) :
  actor_getUserProgress hasPermission caller w = (w', r) ->
  localStorage w' = localStorage w /\ queryData w' = queryData w /\ now w' = now w
  /\ net w' = net w /\ server w' = server w
  /\ calls w' = (calls w ++ [(CallGetUserProgress, resolved r)])%list
  /\ (forall progress, r = Resolved progress ->
        progress = snd (ensureProgressInitialized hasPermission (server w) caller)).
Proof.
  unfold actor_getUserProgress, getUserProgress.
  destruct (net w (length (calls w))) as [|message|message];
    destruct (negb (hasPermission caller user));
    intros [= <- <-]; cbn; repeat split; intros progress [=]; now subst.
Qed.

(** *** The replay loop *)

Lemma localStorage_markProgressAsSynced (w w' : World) :
  localStorage w' = localStorage w ->
  localStorage (markProgressAsSynced w') = localStorage (markProgressAsSynced w).
Proof.
  intros H. unfold markProgressAsSynced. rewrite H.
  destruct (localStorage w) as [parsed|] eqn:Hw; [reflexivity | congruence].
Qed.

Lemma markProgressAsSynced_frame (w : World) :
  queryData (markProgressAsSynced w) = queryData w
  /\ now (markProgressAsSynced w) = now w
  /\ net (markProgressAsSynced w) = net w
  /\ server (markProgressAsSynced w) = server w
  /\ calls (markProgressAsSynced w) = calls w.
Proof. unfold markProgressAsSynced. now destruct (localStorage w). Qed.

(** The loop replays a prefix of the list, one write per completion and in
    order; it answers [true] exactly when no write was rejected, in which
    case the whole list was replayed and the entry is marked synced; on a
    rejection the stored entry is left as it was. *)
Lemma syncLoop_spec (seqs : list N) (newLocations : list N) :
  forall (w w' : World) (ok : bool),
    syncLoop hasPermission caller seqs newLocations w = (w', ok) ->
    exists (replayed : list N) (results : list bool),
      replayed `prefix_of` newLocations
      /\ length results = length replayed
      /\ calls w' = (calls w ++ zip (map (replayCall seqs) replayed) results)%list
      /\ ok = forallb (fun b => b) results
      /\ (ok = true ->
            replayed = newLocations
            /\ localStorage w' = localStorage (markProgressAsSynced w))
      /\ (ok = false -> localStorage w' = localStorage w)
      /\ queryData w' = queryData w /\ now w' = now w /\ continues w w'.
Proof.
  induction newLocations as [|n rest IH]; intros w w' ok.
  - cbn [syncLoop]. intros [= <- <-]. exists [], [].
    destruct (markProgressAsSynced_frame w) as (Hq & Hn & Hnet & Hs & Hc).
    cbn [map zip zip_with length forallb]. rewrite app_nil_r.
    assert (continues w (markProgressAsSynced w))
      by (unfold continues; rewrite Hnet, Hs; split; [reflexivity | apply extends_refl]).
    split_and!; easy.
  - cbn [syncLoop].
    destruct (actor_updateProgress hasPermission caller ("location_" +:+ toString n) seqs w)
      as [w1 r] eqn:Hcall.
    apply actor_updateProgress_frame in Hcall as (Hls & Hq & Hn & Hcont & Hcalls).
    destruct r as [progress|message].
    + intros Hloop. apply IH in Hloop
        as (replayed & results & Hpre & Hlen & Hc & Hok & Htrue & Hfalse & Hq' & Hn' & Hcont').
      exists (n :: replayed), (true :: results).
      split_and!.
      * now apply prefix_cons.
      * cbn [length]. now rewrite Hlen.
      * rewrite Hc, Hcalls. cbn [map zip zip_with]. now rewrite <- app_assoc.
      * exact Hok.
      * intros H. destruct (Htrue H) as [-> ->].
        split; [reflexivity | now apply localStorage_markProgressAsSynced].
      * intros H. now rewrite (Hfalse H).
      * congruence.
      * congruence.
      * apply (continues_trans _ _ _ Hcont Hcont').
    + intros [= <- <-]. exists [n], [false].
      split_and!; try easy.
      apply prefix_cons, prefix_nil.
Qed.

Lemma syncUnsyncedProgress_synced (w : World) :
  hasUnsyncedProgress w = false -> syncUnsyncedProgress hasPermission caller w = (w, true).
Proof. intros H. unfold syncUnsyncedProgress. now rewrite H. Qed.

Lemma hasUnsyncedProgress_stored (w : World) (progress : UserProgress) (timestamp : N)
    (synced : bool) :
  localStorage w = Some (progressData progress timestamp synced) ->
  hasUnsyncedProgress w = negb synced.
Proof. intros H. unfold hasUnsyncedProgress. now rewrite H. Qed.

(** With an unsynced entry written by the application, reconciliation is
    the read followed by the replay loop over the missing completions. *)
Lemma syncUnsyncedProgress_unfold (w : World) (cached : UserProgress) (timestamp : N) :
  localStorage w = Some (progressData cached timestamp false) ->
  syncUnsyncedProgress hasPermission caller w =
    match actor_getUserProgress hasPermission caller w with
    | (w1, Rejected _) => (w1, false)
    | (w1, Resolved backendProgress) =>
        syncLoop hasPermission caller (currentSequences cached)
          (newLocationsOf cached backendProgress) w1
    end.
Proof.
  intros Hstored. unfold syncUnsyncedProgress.
  rewrite (hasUnsyncedProgress_stored w cached timestamp false Hstored).
  rewrite (load_progressData w cached timestamp false Hstored). cbn [negb].
  destruct (actor_getUserProgress hasPermission caller w) as [w1 [backendProgress|message]];
    [|reflexivity].
  now destruct (newLocationsOf cached backendProgress).
Qed.



(** *** The mutation when every call fails at the network *)






Lemma onMutate_frame (locationId : string) (w : World) :
  localStorage (fst (onMutate locationId w)) = localStorage w
  /\ net (fst (onMutate locationId w)) = net w
  /\ server (fst (onMutate locationId w)) = server w
  /\ calls (fst (onMutate locationId w)) = calls w.
Proof.
  unfold onMutate. destruct (queryData w) as [previous|]; [|easy].
  now destruct (negb _).
Qed.

Lemma onMutate_queryData (locationId : string) (w : World) :
  queryData (fst (onMutate locationId w)) =
    match queryData w with
    | Some previous =>
        if existsb (fun loc => loc =? locationNumberOf locationId) (completedLocations previous)
        then Some previous
        else Some (optimistic previous (locationNumberOf locationId))
    | None => None
    end.
Proof.
  unfold onMutate. destruct (queryData w) as [previous|] eqn:Hq; [|exact Hq].
  now destruct (existsb _ (completedLocations previous)).
Qed.

(** The optimistic update is applied once: on its own result it changes
    nothing. *)
Lemma onMutate_settled (locationId : string) (w0 w : World) :
  queryData w = queryData (fst (onMutate locationId w0)) ->
  queryData (fst (onMutate locationId w)) = queryData w.
Proof.
  rewrite !onMutate_queryData. intros ->.
  destruct (queryData w0) as [previous|]; [|reflexivity].
  destruct (existsb _ (completedLocations previous)) eqn:Hex.
  - now rewrite Hex.
  - cbn [optimistic completedLocations]. rewrite existsb_app. cbn [existsb].
    rewrite N.eqb_refl. now rewrite orb_true_r.
Qed.


(** *** Reconciliation on a healthy network *)

Lemma ensureProgressInitialized_currentOf (st : State) :
  snd (ensureProgressInitialized hasPermission st caller) = currentOf st caller.
Proof.
  unfold ensureProgressInitialized, currentOf.
  now destruct (userProgress st !! caller).
Qed.

Lemma syncLoop_healthy (seqs : list N) (newLocations : list N) :
  hasPermission caller user = true ->
  forall w : World,
    (forall i, net w i = Deliver) ->
    (forall m, In m newLocations -> resolves caller (server w) m) ->
    exists w',
      syncLoop hasPermission caller seqs newLocations w = (w', true)
      /\ (forall m, In m newLocations -> In m (completedOf (server w') caller))
      /\ continues w w'
      /\ localStorage w' = localStorage (markProgressAsSynced w).
Proof.
  intros Hperm. induction newLocations as [|n rest IH]; intros w Hnet Hres.
  - exists (markProgressAsSynced w). cbn [syncLoop].
    destruct (markProgressAsSynced_frame w) as (_ & _ & Hn & Hs & _).
    split_and!; [reflexivity | intros m [] | | reflexivity].
    unfold continues. rewrite Hn, Hs. split; [reflexivity | apply extends_refl].
  - cbn [syncLoop].
    destruct (updateProgress_resolves hasPermission (server w) caller n seqs Hperm
                (Hres n (or_introl eq_refl))) as (st' & progress & Hupdate & Hin).
    destruct (actor_updateProgress hasPermission caller ("location_" +:+ toString n) seqs w)
      as [w1 r] eqn:Hcall.
    pose proof (actor_updateProgress_frame _ _ _ _ _ Hcall) as (Hls & _ & _ & Hcont & _).
    unfold actor_updateProgress in Hcall. rewrite Hnet, Hupdate in Hcall.
    injection Hcall as <- <-.
    destruct (IH (set_server st'
                    (record_call (CallUpdateProgress ("location_" +:+ toString n) seqs) true w)))
      as (w' & -> & Hall & Hcont' & Hls').
    + intros i. apply Hnet.
    + intros m Hm. eapply extends_resolves; [apply Hcont|]. apply Hres. now right.
    + exists w'. split_and!; [reflexivity | | |].
      * intros m [<-|Hm]; [|now apply Hall].
        eapply extends_completed; [apply Hcont'|]. exact Hin.
      * eapply continues_trans; eauto.
      * rewrite Hls'. now apply localStorage_markProgressAsSynced.
Qed.

Lemma syncUnsyncedProgress_healthy (cached : UserProgress) (timestamp : N) (w : World) :
  hasPermission caller user = true ->
  (forall i, net w i = Deliver) ->
  localStorage w = Some (progressData cached timestamp false) ->
  (forall m, In m (completedLocations cached) ->
             ~ In m (completedOf (server w) caller) -> resolves caller (server w) m) ->
  exists w',
    syncUnsyncedProgress hasPermission caller w = (w', true)
    /\ (forall m, In m (completedLocations cached) -> In m (completedOf (server w') caller))
    /\ localStorage w' = Some (progressData cached timestamp true)
    /\ extends (server w) (server w').
Proof.
  intros Hperm Hnet Hstored Hres.
  rewrite (syncUnsyncedProgress_unfold w cached timestamp Hstored).
  destruct (actor_getUserProgress hasPermission caller w) as [w1 r] eqn:Hread.
  pose proof (actor_getUserProgress_frame _ _ _ Hread)
    as (Hls & _ & _ & Hnet1 & Hserver & _ & Hfresh).
  unfold actor_getUserProgress, getUserProgress in Hread.
  rewrite Hnet, Hperm in Hread. cbn [negb] in Hread. injection Hread as _ <-.
  rewrite ensureProgressInitialized_currentOf.
  destruct (syncLoop_healthy (currentSequences cached)
              (newLocationsOf cached (currentOf (server w) caller)) Hperm w1)
    as (w' & -> & Hall & [_ Hext] & Hls').
  - intros i. rewrite Hnet1. apply Hnet.
  - intros m Hm. unfold newLocationsOf in Hm. apply filter_In in Hm as [Hm Hmissing].
    rewrite Hserver. apply Hres; [exact Hm|].
    rewrite completedOf_currentOf. intros Hin. apply existsb_eqb_In in Hin.
    now rewrite Hin in Hmissing.
  - rewrite Hserver in Hext. exists w'. split_and!; [reflexivity | | | exact Hext].
    + intros m Hm.
      destruct (existsb (fun bLoc => bLoc =? m)
                  (completedLocations (currentOf (server w) caller))) eqn:Hex.
      * apply existsb_eqb_In in Hex. rewrite <- completedOf_currentOf in Hex.
        eapply extends_completed; eauto.
      * apply Hall. unfold newLocationsOf. apply filter_In. split; [exact Hm|].
        now rewrite Hex.
    + rewrite Hls'. unfold markProgressAsSynced. now rewrite Hls, Hstored.
Qed.

Lemma syncUnsyncedProgress_extends (w : World) :
  extends (server w) (server (fst (syncUnsyncedProgress hasPermission caller w))).
Proof.
  unfold syncUnsyncedProgress.
  destruct (negb (hasUnsyncedProgress w)); [apply extends_refl|].
  destruct (loadProgressFromLocalStorage w) as [cachedProgress|]; [|apply extends_refl].
  destruct (actor_getUserProgress hasPermission caller w) as [w1 r] eqn:Hread.
  apply actor_getUserProgress_frame in Hread as (_ & _ & _ & _ & Hserver & _ & _).
  rewrite <- Hserver.
  destruct r as [backendProgress|message]; [|apply extends_refl].
  destruct (length (newLocationsOf cachedProgress backendProgress) =? 0)%nat.
  - cbn [fst]. destruct (markProgressAsSynced_frame w1) as (_ & _ & _ & -> & _).
    apply extends_refl.
  - destruct (syncLoop hasPermission caller (currentSequences cachedProgress)
                (newLocationsOf cachedProgress backendProgress) w1) as [w' ok] eqn:Hloop.
    apply syncLoop_spec in Hloop as (? & ? & _ & _ & _ & _ & _ & _ & _ & _ & [_ Hext]).
    exact Hext.
Qed.

(** *** Monotonicity *)

(** C7 (monotonicity).  Along any sequence of calls to the actor
    ([updateProgress], [updateMainProgress], [getUserProgress],
    [initializeLocations]), and across a reconciliation run by any session,
    the completions of every identity before are a prefix of its completions
    after; the record a first read creates lazily adds none and removes
    none. *)
Theorem completedLocations_never_shrink :
  (forall (ops : list Op) (st : State) (u : Principal),
      completedOf st u `prefix_of` completedOf (run hasPermission ops st) u)
  /\ (forall (st : State) (reader u : Principal),
        completedOf (fst (ensureProgressInitialized hasPermission st reader)) u
        = completedOf st u)
  /\ (forall (w : World) (u : Principal),
        completedOf (server w) u
          `prefix_of`
        completedOf (server (fst (syncUnsyncedProgress hasPermission caller w))) u).
Proof.
  split_and!.
  - intros ops st u. apply run_prefix.
  - intros st reader u. apply completedOf_ensure.
  - intros w u. destruct (syncUnsyncedProgress_extends w) as [_ H]. apply H.
Qed.

End SessionFacts.

(** ** The trail scenario, run *)

Section Scenario.
Import Backend History Client.

(** After the first completion the cache mirrors the canister, synced. *)
Example alice_after_first :
  localStorage aliceAfterFirst = Some (progressData (withCompletion initialProgress 1 []) 500 true)
  /\ queryData aliceAfterFirst = Some (withCompletion initialProgress 1 [])
  /\ completedOf (server aliceAfterFirst) "alice" = [1].
Proof. vm_compute. repeat split. Qed.

(** After the outage the canister still has one completion, the cache two. *)
Example alice_back_online :
  completedOf (server aliceBackOnline) "alice" = [1]
  /\ (completedLocations <$> loadProgressFromLocalStorage aliceBackOnline) = Some [1; 2]
  /\ hasUnsyncedProgress aliceBackOnline = true.
Proof. vm_compute. repeat split. Qed.

(** Reconciliation reads once and replays the one missing completion. *)
Example alice_reconciled :
  let reconciled := syncUnsyncedProgress openAccess "alice" aliceBackOnline in
  snd reconciled = true
  /\ completedOf (server (fst reconciled)) "alice" = [1; 2]
  /\ drop (length (calls aliceBackOnline)) (calls (fst reconciled))
     = [(CallGetUserProgress, true); (CallUpdateProgress "location_2" [], true)]
  /\ hasUnsyncedProgress (fst reconciled) = false.
Proof. vm_compute. repeat split. Qed.


End Scenario.

(** * Further properties of the actor *)

Section RecordInvariants.
Import Backend History Invariant.

Variable hasPermission : Principal -> UserRole -> bool.

(** How a call of [updateMainProgress] ends. *)
Lemma updateMainProgress_known (st : State) (caller : Principal) (stage : N) :
  updateMainProgress hasPermission st caller stage =
    if negb (hasPermission caller user) then
      Trap "Unauthorized: Only authenticated users can update progress"
    else if negb (validStage stage) then Trap "Invalid stage: Must be between 1 and 3"
    else Ok (withRecord st caller
               (withFlags (currentOf st caller)
                  (setStage stage (mainProgress (currentOf st caller)))), tt).
Proof.
  unfold updateMainProgress, validStage.
  destruct (negb (hasPermission caller user)) eqn:Hperm; [reflexivity|].
  destruct ((stage <? 1) || (3 <? stage)); [reflexivity|]. cbn [negb].
  apply negb_false_iff in Hperm.
  unfold ensureProgressInitialized, currentOf, withRecord, withFlags, setStage.
  destruct (userProgress st !! caller) as [progress|] eqn:Hrec; cbn [default from_option].
  - reflexivity.
  - rewrite Hperm. cbn [userProgress storyLocations]. now rewrite insert_insert_eq.
Qed.

(** The progress map after a call is the old one, or the old one with the
    record of the caller, who holds the user role, replaced. *)
Lemma exec_userProgress (op : Op) (st : State) :
  userProgress (exec hasPermission op st) = userProgress st
  \/ exists caller progress,
       hasPermission caller user = true
       /\ userProgress (exec hasPermission op st) = <[caller := progress]> (userProgress st).
Proof.
  destruct op as [caller locationId seqs | caller stage | caller | caller]; cbn [exec].
  - destruct (updateProgress _ _ _ _ _) as [[st' progress]|] eqn:H; [|now left].
    apply updateProgress_Ok_inv in H as (Hperm & location & _ & Hcase).
    destruct Hcase as [(_ & _ & ->) | (_ & _ & _ & ->)].
    + unfold ensureProgressInitialized.
      destruct (userProgress st !! caller); [now left|]. rewrite Hperm.
      right. now exists caller, initialProgress.
    + right. now exists caller, progress.
  - rewrite updateMainProgress_known.
    destruct (negb (hasPermission caller user)) eqn:Hperm; [now left|].
    destruct (negb (validStage stage)); [now left|].
    apply negb_false_iff in Hperm. right. eexists _, _. split; [exact Hperm | reflexivity].
  - now left.
  - unfold initializeLocations. destruct (negb _); now left.
Qed.

(** X1.  From a state whose records all belong to principals holding the
    user role (the empty canister in particular), no sequence of calls ever
    stores a record for a principal without the role. *)
Theorem records_only_for_authorised (ops : list Op) (st : State) :
  recordsAuthorised hasPermission st ->
  recordsAuthorised hasPermission (run hasPermission ops st).
Proof.
  revert st. induction ops as [|op ops IH]; intros st Hst; [exact Hst|].
  cbn [run fold_left]. apply IH. intros u progress.
  destruct (exec_userProgress op st) as [-> | (caller & q & Hperm & ->)]; [apply Hst|].
  destruct (decide (caller = u)) as [<-|Hne].
  - intros _. exact Hperm.
  - rewrite lookup_insert_ne by done. apply Hst.
Qed.

(** A property of records that the initial record has, that adding an
    in-range completion the record lacks keeps, and that does not depend on
    the flags, holds of every record after any call. *)
Lemma exec_allRecords (P : UserProgress -> Prop) :
  P initialProgress ->
  (forall current seq seqs,
      P current -> ~ In seq (completedLocations current) ->
      outOfRange current seq = false -> P (withCompletion current seq seqs)) ->
  (forall progress flags, P progress -> P (withFlags progress flags)) ->
  forall (op : Op) (st : State),
    allRecords P st -> allRecords P (exec hasPermission op st).
Proof.
  intros Hinit Hadd Hflags op st Hall.
  destruct op as [caller locationId seqs | caller stage | caller | caller]; cbn [exec].
  - destruct (updateProgress _ _ _ _ _) as [[st' progress]|] eqn:H; [|exact Hall].
    apply updateProgress_Ok_inv in H as (_ & location & _ & Hcase).
    destruct Hcase as [(_ & _ & ->) | (Hnew & Hrange & -> & ->)].
    + apply allRecords_ensure; assumption.
    + apply allRecords_withRecord; [|exact Hall].
      apply Hadd; [|exact Hnew|exact Hrange].
      now apply currentOf_allRecords.
  - rewrite updateMainProgress_known.
    destruct (negb (hasPermission caller user)); [exact Hall|].
    destruct (negb (validStage stage)); [exact Hall|].
    apply allRecords_withRecord; [|exact Hall].
    apply Hflags. now apply currentOf_allRecords.
  - exact Hall.
  - unfold initializeLocations. destruct (negb _); exact Hall.
Qed.

Lemma run_allRecords (P : UserProgress -> Prop) :
  P initialProgress ->
  (forall current seq seqs,
      P current -> ~ In seq (completedLocations current) ->
      outOfRange current seq = false -> P (withCompletion current seq seqs)) ->
  (forall progress flags, P progress -> P (withFlags progress flags)) ->
  forall (ops : list Op) (st : State),
    allRecords P st -> allRecords P (run hasPermission ops st).
Proof.
  intros Hinit Hadd Hflags ops.
  induction ops as [|op ops IH]; intros st Hall; [exact Hall|].
  cbn [run fold_left]. apply IH. now apply exec_allRecords.
Qed.

(** X2.  No completion is ever stored twice: records without duplicates stay
    without duplicates under every sequence of calls. *)
Theorem completedLocations_NoDup (ops : list Op) (st : State) :
  allRecords (fun progress => NoDup (completedLocations progress)) st ->
  allRecords (fun progress => NoDup (completedLocations progress))
    (run hasPermission ops st).
Proof.
  apply run_allRecords.
  - constructor.
  - intros current seq seqs Hnd Hnew _. cbn [withCompletion completedLocations].
    apply NoDup_app. split_and!; [exact Hnd | | apply NoDup_singleton].
    intros x Hx Hin. apply list_elem_of_In in Hx. apply list_elem_of_In in Hin.
    destruct Hin as [<-|[]]. contradiction.
  - intros progress flags H. exact H.
Qed.

(** X3.  [lastCompletedLocation] always names the completion added last (0
    while there is none), under every sequence of calls. *)
Theorem lastCompletedLocation_is_latest (ops : list Op) (st : State) :
  allRecords lastIsLatest st -> allRecords lastIsLatest (run hasPermission ops st).
Proof.
  apply run_allRecords.
  - reflexivity.
  - intros current seq seqs _ _ _. unfold lastIsLatest.
    cbn [withCompletion completedLocations lastCompletedLocation].
    now rewrite List.last_last.
  - intros progress flags H. exact H.
Qed.

End RecordInvariants.

Section TrailFacts.
Import Backend History Invariant.

Variable hasPermission : Principal -> UserRole -> bool.

Lemma trailTable_exec (op : Op) (st : State) :
  trailTable st -> trailTable (exec hasPermission op st).
Proof.
  intros Htable.
  destruct op as [caller locationId seqs | caller stage | caller | caller]; cbn [exec].
  - destruct (updateProgress _ _ _ _ _) as [[st' progress]|] eqn:H; [|exact Htable].
    apply updateProgress_extends in H as [Hloc _]. unfold trailTable. now rewrite Hloc.
  - rewrite updateMainProgress_known.
    destruct (negb (hasPermission caller user)); [exact Htable|].
    destruct (negb (validStage stage)); exact Htable.
  - exact Htable.
  - unfold initializeLocations. destruct (negb _); [exact Htable|].
    intros locationId location. cbn [storyLocations id location1 location2].
    destruct (decide ("location_2" = locationId)) as [<-|Hne2].
    + rewrite lookup_insert_eq. intros [= <-]. now right.
    + rewrite lookup_insert_ne by done.
      destruct (decide ("location_1" = locationId)) as [<-|Hne1].
      * rewrite lookup_insert_eq. intros [= <-]. now left.
      * rewrite lookup_insert_ne by done. apply Htable.
Qed.

Lemma trailLoaded_exec (op : Op) (st : State) :
  trailLoaded st -> trailLoaded (exec hasPermission op st).
Proof.
  intros [H1 H2].
  destruct op as [caller locationId seqs | caller stage | caller | caller]; cbn [exec].
  - destruct (updateProgress _ _ _ _ _) as [[st' progress]|] eqn:H; [|now split].
    apply updateProgress_extends in H as [Hloc _]. unfold trailLoaded. now rewrite Hloc.
  - rewrite updateMainProgress_known.
    destruct (negb (hasPermission caller user)); [now split|].
    destruct (negb (validStage stage)); now split.
  - now split.
  - unfold initializeLocations. destruct (negb _); [now split|].
    split; cbn [storyLocations id location1 location2].
    + rewrite lookup_insert_ne by done. apply lookup_insert_eq.
    + apply lookup_insert_eq.
Qed.

Lemma trailLoaded_run (ops : list Op) (st : State) :
  trailLoaded st -> trailLoaded (run hasPermission ops st).
Proof.
  revert st. induction ops as [|op ops IH]; intros st Hst; [exact Hst|].
  cbn [run fold_left]. apply IH. now apply trailLoaded_exec.
Qed.

Lemma trailRecord_initial : trailRecord initialProgress.
Proof. split_and!; [reflexivity | constructor | intros m []]. Qed.

Lemma trailRecord_exec (op : Op) (st : State) :
  trailTable st -> allRecords trailRecord st ->
  allRecords trailRecord (exec hasPermission op st).
Proof.
  intros Htable Hall.
  destruct op as [caller locationId seqs | caller stage | caller | caller]; cbn [exec].
  - destruct (updateProgress _ _ _ _ _) as [[st' progress]|] eqn:H; [|exact Hall].
    apply updateProgress_Ok_inv in H as (_ & location & Hloc & Hcase).
    destruct Hcase as [(_ & _ & ->) | (Hnew & _ & -> & ->)].
    + apply allRecords_ensure; [apply trailRecord_initial | exact Hall].
    + apply allRecords_withRecord; [|exact Hall].
      destruct (currentOf_allRecords trailRecord st caller trailRecord_initial Hall)
        as (Htotal & Hnd & Hset).
      split_and!.
      * exact Htotal.
      * cbn [withCompletion completedLocations]. apply NoDup_app.
        split_and!; [exact Hnd | | apply NoDup_singleton].
        intros x Hx Hin. apply list_elem_of_In in Hx. apply list_elem_of_In in Hin.
        destruct Hin as [<-|[]]. contradiction.
      * cbn [withCompletion completedLocations]. intros m Hm.
        apply in_app_or in Hm as [Hm | [<- | []]]; [now apply Hset|].
        destruct (Htable _ _ Hloc) as [[_ ->] | [_ ->]]; [now left | now right].
  - rewrite updateMainProgress_known.
    destruct (negb (hasPermission caller user)); [exact Hall|].
    destruct (negb (validStage stage)); [exact Hall|].
    apply allRecords_withRecord; [|exact Hall].
    exact (currentOf_allRecords trailRecord st caller trailRecord_initial Hall).
  - exact Hall.
  - unfold initializeLocations. destruct (negb _); exact Hall.
Qed.

Lemma trail_run (ops : list Op) (st : State) :
  trailTable st -> allRecords trailRecord st ->
  trailTable (run hasPermission ops st)
  /\ allRecords trailRecord (run hasPermission ops st).
Proof.
  revert st. induction ops as [|op ops IH]; intros st Htable Hall; [now split|].
  cbn [run fold_left]. apply IH; [now apply trailTable_exec | now apply trailRecord_exec].
Qed.

Lemma trail_from_empty (ops : list Op) :
  trailTable (run hasPermission ops empty_state)
  /\ allRecords trailRecord (run hasPermission ops empty_state).
Proof.
  apply trail_run.
  - intros locationId location H. cbn in H. now rewrite lookup_empty in H.
  - intros u progress H. cbn in H. now rewrite lookup_empty in H.
Qed.

Lemma trailRecord_length (progress : UserProgress) :
  trailRecord progress -> (length (completedLocations progress) <= 2)%nat.
Proof.
  intros (_ & Hnd & Hset).
  change 2%nat with (length [1; 2]).
  apply NoDup_incl_length.
  - now apply NoDup_ListNoDup.
  - intros m Hm. destruct (Hset m Hm) as [-> | ->]; [now left | right; now left].
Qed.

(** X4.  In every state the calls reach from the empty canister, the location
    table holds only the two locations [initializeLocations] loads, every
    record has [totalLocations = 3], and the completions of every identity
    are distinct numbers among 1 and 2: at most two of the three. *)
Theorem trail_never_completed (ops : list Op) (u : Principal) :
  let st := run hasPermission ops empty_state in
  trailTable st
  /\ totalLocations (currentOf st u) = 3
  /\ (forall m, In m (completedOf st u) -> m = 1 \/ m = 2)
  /\ (length (completedOf st u) <= 2)%nat.
Proof.
  cbv zeta. destruct (trail_from_empty ops) as [Htable Hall].
  pose proof (currentOf_allRecords trailRecord _ u trailRecord_initial Hall) as Hrec.
  rewrite completedOf_currentOf.
  split_and!; [exact Htable | apply Hrec | apply Hrec | now apply trailRecord_length].
Qed.

(** X5.  Once an admin has loaded the locations, whatever calls came before
    and come after, a write by a principal holding the user role for
    [location_1] or [location_2] succeeds, and the record returned, which is
    the one stored for the caller, holds the location's number. *)
Theorem loaded_locations_accept_writes (ops1 ops2 : list Op) (loader caller : Principal)
    (k : N) (seqs : list N) :
  hasPermission loader admin = true ->
  hasPermission caller user = true ->
  k = 1 \/ k = 2 ->
  let st := run hasPermission (ops1 ++ OpInitializeLocations loader :: ops2) empty_state in
  exists st' progress,
    updateProgress hasPermission st caller ("location_" +:+ toString k) seqs
      = Ok (st', progress)
    /\ In k (completedLocations progress)
    /\ userProgress st' !! caller = Some progress.
Proof.
  intros Hloader Hcaller Hk st.
  assert (Hloaded : trailLoaded st).
  { subst st. unfold run. rewrite fold_left_app. cbn [fold_left].
    apply (trailLoaded_run ops2). cbn [exec]. unfold initializeLocations.
    rewrite Hloader. cbn [negb].
    split; cbn [storyLocations id location1 location2].
    - rewrite lookup_insert_ne by done. apply lookup_insert_eq.
    - apply lookup_insert_eq. }
  destruct (trail_from_empty (ops1 ++ OpInitializeLocations loader :: ops2)) as [_ Hall].
  fold st in Hall.
  pose proof (currentOf_allRecords trailRecord st caller trailRecord_initial Hall)
    as (Htotal & _ & _).
  assert (Hfind : exists location,
             storyLocations st !! ("location_" +:+ toString k) = Some location
             /\ sequenceNumber location = k).
  { destruct Hloaded as [H1 H2].
    destruct Hk as [-> | ->]; [now exists location1 | now exists location2]. }
  destruct Hfind as (location & Hfind & Hseq).
  rewrite (updateProgress_known hasPermission st caller _ location seqs Hcaller Hfind).
  cbv zeta. rewrite Hseq.
  destruct (isLocationCompleted _ _) eqn:Hdone.
  - apply isLocationCompleted_In in Hdone.
    eexists _, _. split_and!; [reflexivity | exact Hdone |].
    unfold currentOf, ensureProgressInitialized in *.
    destruct (userProgress st !! caller) as [progress|] eqn:Hrec; [exact Hrec|].
    cbn in Hdone. contradiction.
  - assert (Hrange : outOfRange (currentOf st caller) k = false).
    { unfold outOfRange. rewrite Htotal. destruct Hk as [-> | ->]; reflexivity. }
    rewrite Hrange. eexists _, _. split_and!; [reflexivity | |].
    + cbn [withCompletion completedLocations]. apply in_or_app. right. now left.
    + unfold withRecord. cbn [userProgress]. apply lookup_insert_eq.
Qed.

End TrailFacts.

Section StageFacts.
Import Backend History Invariant.

Variable hasPermission : Principal -> UserRole -> bool.

Lemma validStage_cases (stage : N) :
  validStage stage = true -> stage = 1 \/ stage = 2 \/ stage = 3.
Proof.
  unfold validStage. intros H. apply negb_true_iff, orb_false_iff in H as [H1 H3].
  apply N.ltb_ge in H1, H3. lia.
Qed.

Lemma setStage_commute (a b : N) (flags : MainProgress) :
  setStage a (setStage b flags) = setStage b (setStage a flags).
Proof.
  unfold setStage.
  destruct (a =? 1), (a =? 2), (a =? 3), (b =? 1), (b =? 2), (b =? 3); reflexivity.
Qed.

Lemma setStage_twice (a : N) (flags : MainProgress) :
  setStage a (setStage a flags) = setStage a flags.
Proof. unfold setStage. destruct (a =? 1), (a =? 2), (a =? 3); reflexivity. Qed.

Lemma currentOf_withRecord_same (st : State) (caller : Principal) (progress : UserProgress) :
  currentOf (withRecord st caller progress) caller = progress.
Proof. unfold currentOf, withRecord; cbn [userProgress]. now rewrite lookup_insert_eq. Qed.

Lemma currentOf_withRecord_other (st : State) (caller u : Principal) (progress : UserProgress) :
  caller <> u -> currentOf (withRecord st caller progress) u = currentOf st u.
Proof.
  intros Hne. unfold currentOf, withRecord; cbn [userProgress]. now rewrite lookup_insert_ne.
Qed.

(** X6.  A call of [updateMainProgress] by a principal holding the user role
    with a stage from 1 to 3 sets that stage's flag, clears none, and leaves
    the completions and every other field of the caller's record, and the
    records of all other principals, as they were; with any other stage it
    traps and changes nothing. *)
Theorem updateMainProgress_sets_one_flag (st : State) (caller : Principal) (stage : N) :
  hasPermission caller user = true ->
  (1 <= stage <= 3 ->
     exists st',
       updateMainProgress hasPermission st caller stage = Ok (st', tt)
       /\ stageFlag stage (mainProgress (currentOf st' caller)) = true
       /\ flagsKept (mainProgress (currentOf st caller)) (mainProgress (currentOf st' caller))
       /\ completedLocations (currentOf st' caller) = completedLocations (currentOf st caller)
       /\ lastCompletedLocation (currentOf st' caller)
          = lastCompletedLocation (currentOf st caller)
       /\ totalLocations (currentOf st' caller) = totalLocations (currentOf st caller)
       /\ currentSequences (currentOf st' caller) = currentSequences (currentOf st caller)
       /\ storyLocations st' = storyLocations st
       /\ forall u, u <> caller -> userProgress st' !! u = userProgress st !! u)
  /\ (stage < 1 \/ 3 < stage ->
       updateMainProgress hasPermission st caller stage
         = Trap "Invalid stage: Must be between 1 and 3"
       /\ exec hasPermission (OpUpdateMainProgress caller stage) st = st).
Proof.
  intros Hperm. split.
  - intros Hstage.
    assert (Hvalid : validStage stage = true).
    { unfold validStage. apply negb_true_iff, orb_false_iff.
      split; apply N.ltb_ge; lia. }
    rewrite updateMainProgress_known, Hperm, Hvalid. cbn [negb].
    eexists. split; [reflexivity|].
    rewrite currentOf_withRecord_same. cbn [withFlags mainProgress completedLocations
      lastCompletedLocation totalLocations currentSequences].
    set (flags := mainProgress (currentOf st caller)).
    split_and!; try reflexivity.
    + destruct (validStage_cases stage Hvalid) as [-> | [-> | ->]]; reflexivity.
    + destruct (validStage_cases stage Hvalid) as [-> | [-> | ->]];
        unfold flagsKept; cbn; tauto.
    + intros u Hne. unfold withRecord; cbn [userProgress]. now rewrite lookup_insert_ne.
  - intros Hstage.
    assert (Hvalid : validStage stage = false).
    { unfold validStage. apply negb_false_iff, orb_true_iff.
      destruct Hstage; [left | right]; now apply N.ltb_lt. }
    cbn [exec]. rewrite updateMainProgress_known, Hperm, Hvalid. now split.
Qed.

Lemma withRecord_twice (st : State) (caller : Principal) (p q : UserProgress) :
  withRecord (withRecord st caller p) caller q = withRecord st caller q.
Proof. unfold withRecord; cbn [userProgress storyLocations]. now rewrite insert_insert_eq. Qed.

Lemma withRecord_commute (st : State) (a b : Principal) (p q : UserProgress) :
  a <> b ->
  withRecord (withRecord st a p) b q = withRecord (withRecord st b q) a p.
Proof.
  intros Hne. unfold withRecord; cbn [userProgress storyLocations].
  f_equal. now apply insert_insert_ne.
Qed.

Lemma exec_updateMainProgress (st : State) (caller : Principal) (stage : N) :
  exec hasPermission (OpUpdateMainProgress caller stage) st =
    if hasPermission caller user && validStage stage
    then withRecord st caller
           (withFlags (currentOf st caller) (setStage stage (mainProgress (currentOf st caller))))
    else st.
Proof.
  cbn [exec]. rewrite updateMainProgress_known.
  destruct (hasPermission caller user); [|reflexivity].
  now destruct (validStage stage).
Qed.

(** X7.  Calls of [updateMainProgress] can be repeated and reordered freely:
    a second identical call changes nothing, and two calls, by the same or by
    different principals, leave the same state in either order. *)
Theorem updateMainProgress_order_irrelevant (st : State) (a b : Principal) (i j : N) :
  let first := OpUpdateMainProgress a i in
  let second := OpUpdateMainProgress b j in
  exec hasPermission first (exec hasPermission first st) = exec hasPermission first st
  /\ exec hasPermission second (exec hasPermission first st)
     = exec hasPermission first (exec hasPermission second st).
Proof.
  cbv zeta. split.
  - rewrite !exec_updateMainProgress.
    destruct (hasPermission a user && validStage i) eqn:Ha; [|reflexivity].
    rewrite currentOf_withRecord_same, withRecord_twice.
    cbn [withFlags mainProgress]. now rewrite setStage_twice.
  - rewrite !exec_updateMainProgress.
    destruct (hasPermission a user && validStage i) eqn:Ha;
      destruct (hasPermission b user && validStage j) eqn:Hb;
      try reflexivity.
    destruct (decide (a = b)) as [<- | Hne].
    + rewrite !currentOf_withRecord_same, !withRecord_twice.
      cbn [withFlags mainProgress lastCompletedLocation completedLocations
           currentSequences totalLocations].
      now rewrite setStage_commute.
    + rewrite (currentOf_withRecord_other st a b _ Hne).
      rewrite (currentOf_withRecord_other st b a _ (not_eq_sym Hne)).
      now apply withRecord_commute.
Qed.

(** *** The stage flags against the completions *)

Lemma flagsConsistent_flagsAtLeast (progress : UserProgress) :
  flagsConsistent progress -> flagsAtLeast progress.
Proof. intros (H1 & H2 & H3). unfold flagsAtLeast. rewrite H1, H2, H3. now split_and!. Qed.

Lemma flagsAtLeast_setStage (progress : UserProgress) (stage : N) :
  flagsAtLeast progress ->
  flagsAtLeast (withFlags progress (setStage stage (mainProgress progress))).
Proof.
  unfold flagsAtLeast, withFlags, setStage. cbn [completedLocations mainProgress].
  intros (H1 & H2 & H3).
  destruct (stage =? 1), (stage =? 2), (stage =? 3); cbn [stage1 stage2 stage3];
    split_and!; auto.
Qed.

Lemma exec_flagsAtLeast (op : Op) (st : State) :
  allRecords flagsAtLeast st -> allRecords flagsAtLeast (exec hasPermission op st).
Proof.
  intros Hall.
  assert (Hinit : flagsAtLeast initialProgress)
    by (apply flagsConsistent_flagsAtLeast, flagsConsistent_initial).
  destruct op as [caller locationId seqs | caller stage | caller | caller].
  - cbn [exec].
    destruct (updateProgress _ _ _ _ _) as [[st' progress]|] eqn:H; [|exact Hall].
    apply updateProgress_Ok_inv in H as (_ & location & _ & Hcase).
    destruct Hcase as [(_ & _ & ->) | (_ & _ & -> & ->)].
    + now apply allRecords_ensure.
    + apply allRecords_withRecord; [|exact Hall].
      apply flagsConsistent_flagsAtLeast, flagsConsistent_withCompletion.
  - rewrite exec_updateMainProgress. destruct (_ && _); [|exact Hall].
    apply allRecords_withRecord; [|exact Hall].
    apply flagsAtLeast_setStage. now apply currentOf_allRecords.
  - exact Hall.
  - cbn [exec]. unfold initializeLocations. destruct (negb _); exact Hall.
Qed.

Lemma run_flagsAtLeast (ops : list Op) :
  forall st, allRecords flagsAtLeast st -> allRecords flagsAtLeast (run hasPermission ops st).
Proof.
  induction ops as [|op ops IH]; intros st Hall; [exact Hall|].
  cbn [run fold_left]. apply IH. now apply exec_flagsAtLeast.
Qed.

(** C2 (derived-flag consistency, as far as [updateMainProgress] leaves it).
    A write of [updateProgress] that adds a completion stores flags
    re-derived from the new size of the set, whatever the flags were before.
    Along every sequence of calls, [updateMainProgress] included, a stage
    reached by the completions stays flagged: [(size >= N)] implies [stageN],
    in every state reached from the empty canister in particular.  The
    converse, hence the equality, is kept along the sequences without
    [updateMainProgress]; [updateMainProgress] itself sets the flag of the
    stage it is given, from 1 to 3, whatever the completions are, and leaves
    the completions as they were. *)
Theorem flags_consistent_without_updateMainProgress :
  (forall st st' caller locationId seqs progress,
      updateProgress hasPermission st caller locationId seqs = Ok (st', progress) ->
      completedOf st' caller <> completedOf st caller ->
      userProgress st' !! caller = Some progress /\ flagsConsistent progress)
  /\ (forall ops st,
        allRecords flagsAtLeast st ->
        allRecords flagsAtLeast (run hasPermission ops st))
  /\ (forall ops, allRecords flagsAtLeast (run hasPermission ops empty_state))
  /\ (forall ops st,
        forallb (fun op => negb (isMainProgressOp op)) ops = true ->
        allRecords flagsConsistent st ->
        allRecords flagsConsistent (run hasPermission ops st))
  /\ (forall st caller stage,
        hasPermission caller user = true ->
        1 <= stage <= 3 ->
        exists st',
          updateMainProgress hasPermission st caller stage = Ok (st', tt)
          /\ stageFlag stage (mainProgress (currentOf st' caller)) = true
          /\ completedLocations (currentOf st' caller)
             = completedLocations (currentOf st caller)).
Proof.
  split_and!.
  - intros st st' caller locationId seqs progress H Hchanged.
    apply updateProgress_Ok_inv in H as (_ & location & _ & Hcase).
    destruct Hcase as [(_ & _ & ->) | (_ & _ & -> & ->)].
    + now rewrite completedOf_ensure in Hchanged.
    + split; [|apply flagsConsistent_withCompletion].
      unfold withRecord; cbn [userProgress]. apply lookup_insert_eq.
  - intros ops st. apply run_flagsAtLeast.
  - intros ops. apply run_flagsAtLeast. intros u progress H.
    cbn [empty_state userProgress] in H. now rewrite lookup_empty in H.
  - intros ops. induction ops as [|op ops IH]; intros st Hops Hall; [exact Hall|].
    cbn [forallb] in Hops. apply andb_true_iff in Hops as [Hop Hops].
    cbn [run fold_left]. apply IH; [exact Hops|].
    apply exec_flagsConsistent; [|exact Hall]. now destruct (isMainProgressOp op).
  - intros st caller stage Hperm [Hlow Hhigh].
    rewrite updateMainProgress_known, Hperm. cbn [negb].
    assert (Hvalid : validStage stage = true).
    { unfold validStage. apply negb_true_iff, orb_false_iff.
      split; apply N.ltb_ge; assumption. }
    rewrite Hvalid. cbn [negb]. eexists. split; [reflexivity|].
    rewrite currentOf_withRecord_same. cbn [withFlags mainProgress completedLocations].
    split; [|reflexivity].
    destruct (validStage_cases stage Hvalid) as [-> | [-> | ->]]; reflexivity.
Qed.

End StageFacts.

Section AnalyticsFacts.
Import Backend History Registry.

Variable hasPermission : Principal -> UserRole -> bool.

Local Abbreviation holds seq :=
  (fun entry : string * UserProgress =>
     isLocationCompleted (completedLocations (snd entry)) seq).

Lemma countCompleted_filter (entries : list (string * UserProgress)) (seq : N) :
  countCompleted entries seq = N.of_nat (length (List.filter (holds seq) entries)).
Proof.
  unfold countCompleted.
  assert (H : forall start,
             fold_left (fun count entry =>
                          if isLocationCompleted (completedLocations (snd entry)) seq
                          then count + 1 else count) entries start
             = start + N.of_nat (length (List.filter (holds seq) entries))).
  { induction entries as [|entry entries IH]; intros start; cbn [fold_left List.filter].
    - cbn. lia.
    - rewrite IH. destruct (isLocationCompleted _ _); cbn [length]; lia. }
  rewrite H. lia.
Qed.

Lemma countCompleted_Permutation (l1 l2 : list (string * UserProgress)) (seq : N) :
  l1 ≡ₚ l2 -> countCompleted l1 seq = countCompleted l2 seq.
Proof.
  intros Hperm. rewrite !countCompleted_filter. f_equal.
  induction Hperm as [|x l l' _ IH|x y l|l l' l'' _ IH1 _ IH2]; cbn [List.filter].
  - reflexivity.
  - destruct (holds seq x); cbn [length]; now rewrite IH.
  - destruct (holds seq x), (holds seq y); reflexivity.
  - congruence.
Qed.

Lemma countCompleted_cons (entry : string * UserProgress)
    (entries : list (string * UserProgress)) (seq : N) :
  countCompleted (entry :: entries) seq =
    (if isLocationCompleted (completedLocations (snd entry)) seq then 1 else 0)
    + countCompleted entries seq.
Proof.
  rewrite !countCompleted_filter. cbn [List.filter].
  destruct (isLocationCompleted _ _); cbn [length]; lia.
Qed.

(** The count after the caller's record is replaced. *)
Lemma countCompleted_withRecord (st : State) (caller : Principal) (progress : UserProgress)
    (seq : N) :
  countCompleted (map_to_list (userProgress (withRecord st caller progress))) seq
  + (if isLocationCompleted (completedOf st caller) seq then 1 else 0)
  = countCompleted (map_to_list (userProgress st)) seq
    + (if isLocationCompleted (completedLocations progress) seq then 1 else 0).
Proof.
  unfold withRecord, completedOf; cbn [userProgress].
  destruct (userProgress st !! caller) as [old|] eqn:Hrec.
  - rewrite <- (insert_delete_eq (userProgress st) caller progress).
    rewrite (countCompleted_Permutation _ _ seq
               (map_to_list_insert (delete caller (userProgress st)) caller progress
                  (lookup_delete_eq _ _))).
    rewrite <- (countCompleted_Permutation _ _ seq
                  (map_to_list_delete (userProgress st) caller old Hrec)).
    rewrite !countCompleted_cons. cbn [snd]. unfold Principal.
    destruct (isLocationCompleted (completedLocations progress) seq),
             (isLocationCompleted (completedLocations old) seq); lia.
  - rewrite (countCompleted_Permutation _ _ seq
               (map_to_list_insert (userProgress st) caller progress Hrec)).
    rewrite countCompleted_cons. cbn [snd].
    replace (if isLocationCompleted [] seq then 1 else 0) with 0 by reflexivity.
    unfold Principal.
    destruct (isLocationCompleted (completedLocations progress) seq); lia.
Qed.

(** X8.  The analytics count of a location is open to admins only, is 0 for
    an unknown location, never exceeds the number of progress records, and
    after a successful [updateProgress] for that location it is one more than
    before when the write added the completion and unchanged when it was a
    repeat. *)
Theorem getCompletedLocationsCount_tracks_writes (st : State) (reader : Principal)
    (locationId : string) :
  (hasPermission reader admin = false ->
     getCompletedLocationsCount hasPermission st reader locationId
       = Trap "Unauthorized: Only admins can access analytics")
  /\ (hasPermission reader admin = true ->
       (storyLocations st !! locationId = None ->
          getCompletedLocationsCount hasPermission st reader locationId = Ok 0)
       /\ (exists count,
             getCompletedLocationsCount hasPermission st reader locationId = Ok count
             /\ count <= N.of_nat (size (userProgress st)))
       /\ (forall caller seqs st' progress location,
             storyLocations st !! locationId = Some location ->
             updateProgress hasPermission st caller locationId seqs = Ok (st', progress) ->
             exists count,
               getCompletedLocationsCount hasPermission st reader locationId = Ok count
               /\ getCompletedLocationsCount hasPermission st' reader locationId
                  = Ok (if isLocationCompleted (completedOf st caller) (sequenceNumber location)
                        then count else count + 1))).
Proof.
  split.
  - intros Hperm. unfold getCompletedLocationsCount. now rewrite Hperm.
  - intros Hperm. unfold getCompletedLocationsCount. rewrite Hperm. cbn [negb].
    split_and!.
    + now intros ->.
    + destruct (storyLocations st !! locationId) as [location|].
      * eexists. split; [reflexivity|].
        rewrite countCompleted_filter, <- length_map_to_list.
        pose proof (filter_length_le (holds (sequenceNumber location))
                      (map_to_list (userProgress st))). lia.
      * exists 0. split; [reflexivity | lia].
    + intros caller seqs st' progress location Hloc Hupdate. rewrite Hloc.
      eexists. split; [reflexivity|].
      pose proof (updateProgress_extends _ _ _ _ _ _ _ Hupdate) as [Hloc' _].
      rewrite Hloc', Hloc. f_equal.
      apply updateProgress_Ok_inv in Hupdate as (_ & location' & Hloc2 & Hcase).
      rewrite Hloc in Hloc2. injection Hloc2 as <-.
      cbv zeta in Hcase. rewrite <- !completedOf_currentOf in Hcase.
      destruct Hcase as [(Hin & _ & ->) | (Hnew & _ & -> & ->)].
      * apply isLocationCompleted_In in Hin. rewrite Hin.
        unfold ensureProgressInitialized.
        destruct (userProgress st !! caller) as [old|] eqn:Hrec; [reflexivity|].
        unfold completedOf in Hin. rewrite Hrec in Hin. discriminate.
      * pose proof (countCompleted_withRecord st caller
                      (withCompletion (currentOf st caller) (sequenceNumber location) seqs)
                      (sequenceNumber location)) as Hcount.
        apply isLocationCompleted_false in Hnew. rewrite Hnew in *.
        assert (Hnow : isLocationCompleted
                         (completedLocations
                            (withCompletion (currentOf st caller) (sequenceNumber location) seqs))
                         (sequenceNumber location) = true).
        { apply isLocationCompleted_In. cbn [withCompletion completedLocations].
          apply in_or_app. right. now left. }
        rewrite Hnow in Hcount. lia.
Qed.

End AnalyticsFacts.

Section ProfileFacts.
Import Backend Registry.

Variable hasPermission : Principal -> UserRole -> bool.
Variable isAdmin : Principal -> bool.

(** X9.  A profile saved by a principal holding the user role is the one
    that principal reads back, also through [getUserProfile] on itself, and
    saving touches nobody else's profile; a principal that is neither the
    owner nor an admin is refused another principal's profile, whatever is
    stored. *)
Theorem profile_saved_is_read_back (userProfiles : gmap string UserProfile)
    (caller : Principal) (profile : UserProfile) :
  hasPermission caller user = true ->
  exists saved,
    saveCallerUserProfile hasPermission userProfiles caller profile = Ok (saved, tt)
    /\ getCallerUserProfile hasPermission saved caller = Ok (Some profile)
    /\ getUserProfile isAdmin saved caller caller = Ok (Some profile)
    /\ (forall other, other <> caller -> saved !! other = userProfiles !! other)
    /\ (forall other, other <> caller -> isAdmin other = false ->
          getUserProfile isAdmin saved other caller
            = Trap "Unauthorized: Can only view your own profile").
Proof.
  intros Hperm. unfold saveCallerUserProfile, getCallerUserProfile, getUserProfile.
  rewrite Hperm. cbn [negb]. eexists. split_and!.
  - reflexivity.
  - now rewrite lookup_insert_eq.
  - rewrite String.eqb_refl. cbn [negb andb]. now rewrite lookup_insert_eq.
  - intros other Hne. now rewrite lookup_insert_ne.
  - intros other Hne Hadmin. rewrite Hadmin.
    destruct (String.eqb_spec other caller) as [->|_]; [contradiction | reflexivity].
Qed.

End ProfileFacts.

(** ** The further actor properties on concrete states *)

Section MoreBackendExamples.
Import Backend History Invariant Registry.

Lemma empty_allRecords (P : UserProgress -> Prop) : allRecords P empty_state.
Proof. intros u progress H. cbn in H. now rewrite lookup_empty in H. Qed.

Lemma records_only_for_authorised_witness :
  recordsAuthorised openAccess (run openAccess trailOps empty_state).
Proof.
  apply records_only_for_authorised.
  intros u progress H. cbn in H. now rewrite lookup_empty in H.
Defined.

Lemma completedLocations_NoDup_witness :
  allRecords (fun progress => NoDup (completedLocations progress))
    (run openAccess trailOps empty_state).
Proof. apply completedLocations_NoDup, empty_allRecords. Defined.

Lemma lastCompletedLocation_is_latest_witness :
  allRecords lastIsLatest (run openAccess trailOps empty_state).
Proof. apply lastCompletedLocation_is_latest, empty_allRecords. Defined.

Example trailOps_result :
  userProgress (run openAccess trailOps empty_state) !! "alice"
  = Some {| lastCompletedLocation := 1; completedLocations := [2; 1];
            currentSequences := []; totalLocations := 3;
            mainProgress := {| stage1 := true; stage2 := true; stage3 := false |} |}.
Proof. vm_compute. reflexivity. Qed.

Lemma loaded_locations_accept_writes_witness :
  exists st' progress,
    updateProgress openAccess
      (run openAccess ([OpUpdateMainProgress "bob" 1] ++ OpInitializeLocations "admin"
                         :: [OpUpdateProgress "alice" "location_1" []]) empty_state)
      "alice" ("location_" +:+ toString 2) [] = Ok (st', progress)
    /\ In 2 (completedLocations progress)
    /\ userProgress st' !! "alice" = Some progress.
Proof.
  apply (loaded_locations_accept_writes openAccess [OpUpdateMainProgress "bob" 1]
           [OpUpdateProgress "alice" "location_1" []] "admin" "alice" 2 []).
  - reflexivity.
  - reflexivity.
  - now right.
Defined.

Lemma flags_consistent_without_updateMainProgress_witness :
  (userProgress (run openAccess [OpUpdateProgress "alice" "location_1" []] trailState)
     !! "alice" = Some (withCompletion initialProgress 1 [])
   /\ flagsConsistent (withCompletion initialProgress 1 []))
  /\ allRecords flagsAtLeast (run openAccess trailOps empty_state)
  /\ allRecords flagsConsistent
       (run openAccess [OpUpdateProgress "alice" "location_1" []; OpGetUserProgress "alice";
                        OpUpdateProgress "alice" "location_2" []] trailState)
  /\ (exists st',
        updateMainProgress openAccess trailState "alice" 3 = Ok (st', tt)
        /\ stageFlag 3 (mainProgress (currentOf st' "alice")) = true
        /\ completedLocations (currentOf st' "alice")
           = completedLocations (currentOf trailState "alice")).
Proof.
  destruct (flags_consistent_without_updateMainProgress openAccess)
    as (Hwrite & _ & Hreach & Hrun & Hstage).
  split; [|split_and!].
  - apply (Hwrite trailState _ "alice" "location_1" []).
    + vm_compute. reflexivity.
    + vm_compute. discriminate.
  - apply Hreach.
  - apply Hrun.
    + reflexivity.
    + intros u progress H. vm_compute in H. discriminate.
  - apply (Hstage trailState "alice" 3); [reflexivity | lia].
Defined.

Lemma updateMainProgress_sets_one_flag_witness :
  (exists st',
     updateMainProgress openAccess trailState "alice" 2 = Ok (st', tt)
     /\ stageFlag 2 (mainProgress (currentOf st' "alice")) = true
     /\ flagsKept (mainProgress (currentOf trailState "alice"))
          (mainProgress (currentOf st' "alice"))
     /\ completedLocations (currentOf st' "alice")
        = completedLocations (currentOf trailState "alice")
     /\ lastCompletedLocation (currentOf st' "alice")
        = lastCompletedLocation (currentOf trailState "alice")
     /\ totalLocations (currentOf st' "alice") = totalLocations (currentOf trailState "alice")
     /\ currentSequences (currentOf st' "alice")
        = currentSequences (currentOf trailState "alice")
     /\ storyLocations st' = storyLocations trailState
     /\ forall u, u <> "alice" -> userProgress st' !! u = userProgress trailState !! u)
  /\ (updateMainProgress openAccess trailState "alice" 4
        = Trap "Invalid stage: Must be between 1 and 3"
      /\ exec openAccess (OpUpdateMainProgress "alice" 4) trailState = trailState)
  /\ (updateMainProgress openAccess trailState "alice" 0
        = Trap "Invalid stage: Must be between 1 and 3"
      /\ exec openAccess (OpUpdateMainProgress "alice" 0) trailState = trailState).
Proof.
  split; [|split].
  - apply (proj1 (updateMainProgress_sets_one_flag openAccess trailState "alice" 2 eq_refl)).
    lia.
  - apply (proj2 (updateMainProgress_sets_one_flag openAccess trailState "alice" 4 eq_refl)).
    right. lia.
  - apply (proj2 (updateMainProgress_sets_one_flag openAccess trailState "alice" 0 eq_refl)).
    left. lia.
Defined.

Lemma getCompletedLocationsCount_tracks_writes_witness :
  let st := run openAccess [OpUpdateProgress "bob" "location_1" []] trailState in
  getCompletedLocationsCount closedAccess st "alice" "location_1"
    = Trap "Unauthorized: Only admins can access analytics"
  /\ getCompletedLocationsCount openAccess st "admin" "location_9" = Ok 0
  /\ exists count,
       getCompletedLocationsCount openAccess st "admin" "location_1" = Ok count
       /\ getCompletedLocationsCount openAccess
            (run openAccess [OpUpdateProgress "alice" "location_1" []] st) "admin" "location_1"
          = Ok (count + 1).
Proof.
  intros st. split_and!.
  - now apply (proj1 (getCompletedLocationsCount_tracks_writes closedAccess st "alice"
                        "location_1")).
  - apply (proj1 (proj2 (getCompletedLocationsCount_tracks_writes openAccess st "admin"
                           "location_9") eq_refl)).
    vm_compute. reflexivity.
  - destruct (proj2 (proj2 (proj2 (getCompletedLocationsCount_tracks_writes openAccess st
                                     "admin" "location_1") eq_refl))
                "alice" [] (run openAccess [OpUpdateProgress "alice" "location_1" []] st)
                (withCompletion initialProgress 1 []) location1)
      as (count & Hbefore & Hafter).
    + vm_compute. reflexivity.
    + vm_compute. reflexivity.
    + exists count. split; [exact Hbefore | exact Hafter].
Defined.

Example analytics_count :
  getCompletedLocationsCount openAccess
    (run openAccess [OpUpdateProgress "bob" "location_1" [];
                     OpUpdateProgress "alice" "location_1" [];
                     OpUpdateProgress "alice" "location_2" []] trailState)
    "admin" "location_1" = Ok 2.
Proof. vm_compute. reflexivity. Qed.

Lemma profile_saved_is_read_back_witness :
  exists saved,
    saveCallerUserProfile openAccess ∅ "alice" {| name := "Alice" |} = Ok (saved, tt)
    /\ getCallerUserProfile openAccess saved "alice" = Ok (Some {| name := "Alice" |})
    /\ getUserProfile (fun _ => false) saved "alice" "alice" = Ok (Some {| name := "Alice" |})
    /\ (forall other, other <> "alice" -> saved !! other = (∅ : gmap string UserProfile) !! other)
    /\ (forall other, other <> "alice" -> (fun _ : Principal => false) other = false ->
          getUserProfile (fun _ => false) saved other "alice"
            = Trap "Unauthorized: Can only view your own profile").
Proof.
  apply (profile_saved_is_read_back openAccess (fun _ => false) ∅ "alice" {| name := "Alice" |}).
  reflexivity.
Defined.

End MoreBackendExamples.

(** * Further properties of the session *)

Section VerifyFacts.
Import Backend History Client.

Variable hasPermission : Principal -> UserRole -> bool.
Variable caller : Principal.

(** X10.  Marking the cached entry unsynced or synced changes the flag (and,
    for unsynced, the timestamp) and nothing else: the record loaded from the
    cache is the same before and after, and with no entry stored both marks
    do nothing. *)
Theorem marking_keeps_cached_progress (w : World) :
  loadProgressFromLocalStorage (markProgressAsUnsynced w) = loadProgressFromLocalStorage w
  /\ loadProgressFromLocalStorage (markProgressAsSynced w) = loadProgressFromLocalStorage w
  /\ hasUnsyncedProgress (markProgressAsUnsynced w) = bool_decide (is_Some (localStorage w))
  /\ hasUnsyncedProgress (markProgressAsSynced w) = false
  /\ localStorage (markProgressAsUnsynced w) = set_synced false (now w) <$> localStorage w
  /\ localStorage (markProgressAsSynced (markProgressAsUnsynced w))
     = set_synced true (now w) <$> localStorage w.
Proof.
  unfold markProgressAsUnsynced, markProgressAsSynced, loadProgressFromLocalStorage,
    hasUnsyncedProgress.
  destruct (localStorage w) as [parsed|] eqn:Hls; cbn; rewrite ?Hls; cbn; now split_and!.
Qed.

Lemma verifyLoop_spec (locationNumber : N) (maxRetries : nat) :
  forall (remaining attempt : nat) (w : World),
    let r := verifyLoop hasPermission caller locationNumber maxRetries remaining attempt w in
    server (fst r) = server w
    /\ localStorage (fst r) = localStorage w
    /\ queryData (fst r) = queryData w
    /\ net (fst r) = net w
    /\ (exists results : list bool,
          (length results <= remaining)%nat
          /\ calls (fst r) = (calls w ++ map (pair CallGetUserProgress) results)%list)
    /\ (verified (snd r) = true ->
          verified_progress (snd r) = Some (currentOf (server w) caller)
          /\ In locationNumber (completedLocations (currentOf (server w) caller))
          /\ verification_error (snd r) = None)
    /\ (verified (snd r) = false ->
          verified_progress (snd r) = None
          /\ exists message, verification_error (snd r) = Some message).
Proof.
  induction remaining as [|remaining IH]; intros attempt w; cbn [verifyLoop].
  - cbn [fst snd]. split_and!; try reflexivity.
    + exists []. split; [reflexivity | now rewrite app_nil_r].
    + discriminate.
    + intros _. split; [reflexivity | eauto].
  - set (delay := 300 * 2 ^ N.of_nat (attempt - 1)).
    destruct (actor_getUserProgress hasPermission caller (sleep delay w))
      as [w1 reply] eqn:Hread.
    apply actor_getUserProgress_frame in Hread
      as (Hls & Hq & Hn & Hnet & Hserver & Hcalls & Hfresh).
    cbn [sleep localStorage queryData now net server calls] in *.
    assert (Hnext : forall w2 (v : Verification),
               (w2, v) = verifyLoop hasPermission caller locationNumber maxRetries
                           remaining (S attempt) w1 ->
               let r := (w2, v) in
               server (fst r) = server w
               /\ localStorage (fst r) = localStorage w
               /\ queryData (fst r) = queryData w
               /\ net (fst r) = net w
               /\ (exists results : list bool,
                     (length results <= S remaining)%nat
                     /\ calls (fst r) = (calls w ++ map (pair CallGetUserProgress) results)%list)
               /\ (verified (snd r) = true ->
                     verified_progress (snd r) = Some (currentOf (server w) caller)
                     /\ In locationNumber (completedLocations (currentOf (server w) caller))
                     /\ verification_error (snd r) = None)
               /\ (verified (snd r) = false ->
                     verified_progress (snd r) = None
                     /\ exists message, verification_error (snd r) = Some message)).
    { intros w2 v Heq. specialize (IH (S attempt) w1). rewrite <- Heq in IH.
      cbv zeta in *. cbn [fst snd] in *.
      destruct IH as (Is & Il & Iq & In' & (results & Ilen & Ic) & It & If).
      rewrite Hserver in *. split_and!; try congruence.
      - exists ((match reply with Resolved _ => true | Rejected _ => false end) :: results).
        split; [cbn [length]; lia|].
        rewrite Ic, Hcalls. cbn [map]. now rewrite <- app_assoc.
      - exact It.
      - exact If. }
    assert (Hstop : forall (v : Verification),
               (verified v = true ->
                  verified_progress v = Some (currentOf (server w) caller)
                  /\ In locationNumber (completedLocations (currentOf (server w) caller))
                  /\ verification_error v = None) ->
               (verified v = false ->
                  verified_progress v = None
                  /\ exists message, verification_error v = Some message) ->
               let r := (w1, v) in
               server (fst r) = server w
               /\ localStorage (fst r) = localStorage w
               /\ queryData (fst r) = queryData w
               /\ net (fst r) = net w
               /\ (exists results : list bool,
                     (length results <= S remaining)%nat
                     /\ calls (fst r) = (calls w ++ map (pair CallGetUserProgress) results)%list)
               /\ (verified (snd r) = true ->
                     verified_progress (snd r) = Some (currentOf (server w) caller)
                     /\ In locationNumber (completedLocations (currentOf (server w) caller))
                     /\ verification_error (snd r) = None)
               /\ (verified (snd r) = false ->
                     verified_progress (snd r) = None
                     /\ exists message, verification_error (snd r) = Some message)).
    { intros v Ht Hf. cbv zeta. cbn [fst snd]. split_and!; try assumption.
      exists [match reply with Resolved _ => true | Rejected _ => false end].
      split; [cbn [length]; lia | exact Hcalls]. }
    destruct reply as [progress|message].
    + assert (Hprogress : progress = currentOf (server w) caller).
      { rewrite (Hfresh progress eq_refl).
        apply (ensureProgressInitialized_currentOf hasPermission caller). }
      destruct (existsb (fun loc => loc =? locationNumber) (completedLocations progress))
        eqn:Hsaved.
      * apply Hstop; cbn.
        -- intros _. subst progress. split_and!; [reflexivity | | reflexivity].
           now apply (existsb_eqb_In _ locationNumber).
        -- discriminate.
      * destruct (verifyLoop hasPermission caller locationNumber maxRetries remaining
                    (S attempt) w1) as [w2 v] eqn:Hloop.
        now apply Hnext.
    + destruct (attempt =? maxRetries)%nat.
      * apply Hstop; cbn; [discriminate|]. intros _. split; [reflexivity | eauto].
      * destruct (verifyLoop hasPermission caller locationNumber maxRetries remaining
                    (S attempt) w1) as [w2 v] eqn:Hloop.
        now apply Hnext.
Qed.

Lemma verifyProgressSaved_frame (expectedLocationId : string) (maxRetries : nat)
    (w : World) :
  let r := verifyProgressSaved hasPermission caller expectedLocationId maxRetries w in
  let expected := locationNumberOf expectedLocationId in
  server (fst r) = server w
  /\ localStorage (fst r) = localStorage w
  /\ queryData (fst r) = queryData w
  /\ (exists results : list bool,
        (length results <= maxRetries)%nat
        /\ calls (fst r) = (calls w ++ map (pair CallGetUserProgress) results)%list)
  /\ (verified (snd r) = true ->
        verified_progress (snd r) = Some (currentOf (server w) caller)
        /\ In expected (completedLocations (currentOf (server w) caller))
        /\ verification_error (snd r) = None)
  /\ (verified (snd r) = false ->
        verified_progress (snd r) = None
        /\ exists message, verification_error (snd r) = Some message).
Proof.
  cbv zeta. unfold verifyProgressSaved.
  pose proof (verifyLoop_spec (locationNumberOf expectedLocationId) maxRetries
                maxRetries 1 w) as H.
  cbv zeta in H. now destruct H as (? & ? & ? & _ & ? & ? & ?).
Qed.

(** X11.  The verification read-back only reads: it leaves the canister, the
    cache and the query data as they were and issues at most [maxRetries]
    [getUserProgress] calls and no other.  It answers verified only with the
    caller's record as the canister holds it, and only when that record holds
    the expected location's number; otherwise it answers with an error text
    and no record. *)
Theorem verifyProgressSaved_reads_only (expectedLocationId : string) (maxRetries : nat)
    (w : World) :
  let r := verifyProgressSaved hasPermission caller expectedLocationId maxRetries w in
  let expected := locationNumberOf expectedLocationId in
  server (fst r) = server w
  /\ localStorage (fst r) = localStorage w
  /\ queryData (fst r) = queryData w
  /\ (exists results : list bool,
        (length results <= maxRetries)%nat
        /\ calls (fst r) = (calls w ++ map (pair CallGetUserProgress) results)%list)
  /\ (verified (snd r) = true ->
        verified_progress (snd r) = Some (currentOf (server w) caller)
        /\ In expected (completedLocations (currentOf (server w) caller))
        /\ verification_error (snd r) = None)
  /\ (verified (snd r) = false ->
        verified_progress (snd r) = None
        /\ exists message, verification_error (snd r) = Some message).
Proof. apply verifyProgressSaved_frame. Qed.

End VerifyFacts.

Section BackoffFacts.
Import Backend History Client.

Variable hasPermission : Principal -> UserRole -> bool.
Variable caller : Principal.

Lemma pow2_succ (k : nat) : 2 ^ N.of_nat (S k) = 2 * 2 ^ N.of_nat k.
Proof. rewrite Nat2N.inj_succ. apply N.pow_succ_r'. Qed.

Lemma verifyLoop_outage (locationNumber : N) (maxRetries : nat) (message : string) :
  forall (remaining attempt : nat) (w : World),
    (forall i, net w i = Drop message) ->
    (1 <= remaining)%nat ->
    (attempt + remaining = maxRetries)%nat ->
    exists w',
      verifyLoop hasPermission caller locationNumber maxRetries remaining (S attempt) w
        = (w', {| verified := false; verified_progress := None;
                  verification_error := Some (orElse message "Verification failed") |})
      /\ calls w' = (calls w ++ repeat (CallGetUserProgress, false) remaining)%list
      /\ now w' + 300 * 2 ^ N.of_nat attempt = now w + 300 * 2 ^ N.of_nat maxRetries
      /\ net w' = net w /\ localStorage w' = localStorage w.
Proof.
  induction remaining as [|remaining IH]; intros attempt w Hnet Hpos Hsum; [lia|].
  cbn [verifyLoop]. unfold actor_getUserProgress.
  cbn [sleep net calls]. rewrite Hnet.
  replace (S attempt - 1)%nat with attempt by lia.
  destruct (Nat.eqb_spec (S attempt) maxRetries) as [Hlast | Hmore].
  - assert (remaining = 0)%nat as -> by lia.
    eexists. split_and!; try reflexivity.
    cbn [record_call sleep now]. rewrite <- Hlast, pow2_succ. lia.
  - destruct (IH (S attempt)
                (record_call CallGetUserProgress false
                   (sleep (300 * 2 ^ N.of_nat attempt) w)))
      as (w' & -> & Hcalls & Hnow & Hnet' & Hls); [exact Hnet | lia | lia |].
    exists w'. split_and!; [reflexivity | | | exact Hnet' | exact Hls].
    + rewrite Hcalls. cbn [record_call sleep calls repeat]. now rewrite <- app_assoc.
    + cbn [record_call sleep now] in Hnow. rewrite pow2_succ in Hnow. lia.
Qed.

(** X12.  When every read is dropped, the verification read-back gives up
    after exactly [maxRetries] reads: not verified, with the message of the
    failure (or ["Verification failed"] for an empty one), having waited
    300 ms before the first read and twice as long before each next one,
    [300 * (2 ^ maxRetries - 1)] ms in all. *)
Theorem verifyProgressSaved_gives_up (expectedLocationId : string) (maxRetries : nat)
    (message : string) (w : World) :
  (forall i, net w i = Drop message) ->
  (1 <= maxRetries)%nat ->
  exists w',
    verifyProgressSaved hasPermission caller expectedLocationId maxRetries w
      = (w', {| verified := false; verified_progress := None;
                verification_error := Some (orElse message "Verification failed") |})
    /\ calls w' = (calls w ++ repeat (CallGetUserProgress, false) maxRetries)%list
    /\ now w' + 300 = now w + 300 * 2 ^ N.of_nat maxRetries.
Proof.
  intros Hnet Hpos. unfold verifyProgressSaved.
  destruct (verifyLoop_outage (locationNumberOf expectedLocationId) maxRetries message
              maxRetries 0 w Hnet Hpos eq_refl) as (w' & -> & Hcalls & Hnow & _).
  exists w'. split_and!; [reflexivity | exact Hcalls |].
  change (2 ^ N.of_nat 0) with 1 in Hnow. lia.
Qed.

(** X13.  The delay function of the retried query and mutation gives 500 ms
    at index 0, never decreases from one index to the next and never exceeds
    2000 ms, which it reaches from index 2 on. *)
Theorem retryDelay_bounded (attemptIndex : nat) :
  500 <= retryDelay attemptIndex <= 2000
  /\ retryDelay attemptIndex <= retryDelay (S attemptIndex)
  /\ retryDelay 0 = 500
  /\ retryDelay (S (S attemptIndex)) = 2000.
Proof.
  unfold retryDelay.
  assert (Hpos : 1 <= 2 ^ N.of_nat attemptIndex).
  { induction attemptIndex as [|k IH]; [reflexivity|]. rewrite pow2_succ. lia. }
  rewrite !pow2_succ. split_and!; try reflexivity; lia.
Qed.

End BackoffFacts.

Section RetryShape.
Import Retry.

Context {W T : Type}.
Variable sleep : N -> W -> W.

Lemma retryLoop_shape (operation : W -> W * Promise T) (maxRetries : nat) :
  forall (remaining attempt : nat) (lastError : option string) (w : W),
    (attempt + remaining = S maxRetries)%nat ->
    (remaining = 0%nat -> exists e, lastError = Some e) ->
    let r := snd (retryLoop sleep operation maxRetries remaining attempt lastError w) in
    (success r = true ->
       (exists v, result r = Some v) /\ error r = None
       /\ (attempt + 1 <= attempts r <= maxRetries + 1)%nat)
    /\ (success r = false ->
         result r = None /\ (exists e, error r = Some e)
         /\ attempts r = (maxRetries + 1)%nat).
Proof.
  induction remaining as [|remaining IH]; intros attempt lastError w Hsum Hlast;
    cbn [retryLoop].
  - cbn [snd success result error attempts]. split; [discriminate|].
    intros _. split_and!; [reflexivity | now apply Hlast | reflexivity].
  - destruct (operation w) as [w1 [v|e]].
    + cbn [snd success result error attempts]. split; [|discriminate].
      intros _. split_and!; [eauto | reflexivity | lia | lia].
    + specialize (IH (S attempt) (Some e)
                    (if (attempt <? maxRetries)%nat
                     then sleep (500 * 2 ^ N.of_nat attempt) w1 else w1)).
      destruct IH as [Ht Hf]; [lia | eauto |].
      split; [|exact Hf].
      intros Hs. destruct (Ht Hs) as (Hv & He & Ha). split_and!; [exact Hv | exact He | lia | lia].
Qed.

(** X14.  Whatever the operation does, the executor reports either a success
    with the value and the number of the attempt that produced it, between 1
    and [maxRetries + 1], or a failure after [maxRetries + 1] attempts that
    carries the last error: a failure is never reported without its error,
    and never as a success. *)
Theorem retryWithBackoff_never_swallows (operation : W -> W * Promise T) (maxRetries : nat)
    (w : W) :
  let r := snd (retryWithBackoff sleep operation maxRetries w) in
  (success r = true ->
     (exists v, result r = Some v) /\ error r = None
     /\ (1 <= attempts r <= maxRetries + 1)%nat)
  /\ (success r = false ->
       result r = None /\ (exists e, error r = Some e)
       /\ attempts r = (maxRetries + 1)%nat).
Proof.
  cbv zeta. unfold retryWithBackoff.
  destruct (retryLoop_shape operation maxRetries (S maxRetries) 0 None w) as [Ht Hf];
    [lia | discriminate |].
  split; [|exact Hf]. intros Hs. destruct (Ht Hs) as (Hv & He & Ha).
  split_and!; [exact Hv | exact He | lia | lia].
Qed.

End RetryShape.

Section MutationFacts.
Import Backend History Client.

Variable hasPermission : Principal -> UserRole -> bool.
Variable caller : Principal.

Lemma updateProgress_Ok_current (st st' : State) (locationId : string) (seqs : list N)
    (progress : UserProgress) :
  updateProgress hasPermission st caller locationId seqs = Ok (st', progress) ->
  currentOf st' caller = progress /\ hasPermission caller user = true.
Proof.
  intros H. apply updateProgress_Ok_inv in H as (Hperm & location & _ & Hcase).
  split; [|exact Hperm].
  destruct Hcase as [(_ & -> & ->) | (_ & _ & -> & ->)].
  - apply currentOf_ensure.
  - apply currentOf_withRecord_same.
Qed.

Lemma actor_updateProgress_resolved (locationId : string) (seqs : list N) (w w1 : World)
    (progress : UserProgress) :
  actor_updateProgress hasPermission caller locationId seqs w = (w1, Resolved progress) ->
  currentOf (server w1) caller = progress /\ hasPermission caller user = true.
Proof.
  unfold actor_updateProgress.
  destruct (net w (length (calls w))) as [|message|message];
    destruct (updateProgress hasPermission (server w) caller locationId seqs)
      as [[st q]|trap] eqn:Hupdate; intros [= <- <-].
  cbn [set_server server]. eapply updateProgress_Ok_current; eauto.
Qed.

Lemma saveLocally_frame (locationId : string) (seqs : list N) (w : World) :
  queryData (saveLocally locationId seqs w) = queryData w
  /\ net (saveLocally locationId seqs w) = net w
  /\ server (saveLocally locationId seqs w) = server w
  /\ calls (saveLocally locationId seqs w) = calls w.
Proof.
  unfold saveLocally. destruct (negb _); [|easy].
  unfold markProgressAsUnsynced. cbn. easy.
Qed.

(** The mutation function never writes the query data. *)
Lemma mutationFn_queryData (locationId : string) (seqs : list N) (w : World) :
  queryData (fst (mutationFn hasPermission caller locationId seqs w)) = queryData w.
Proof.
  unfold mutationFn, saveAndVerify.
  destruct (actor_updateProgress hasPermission caller locationId seqs w) as [w1 r] eqn:Hcall.
  apply actor_updateProgress_frame in Hcall as (_ & Hq & _ & _ & _).
  assert (Hcatch : forall w2 message,
             queryData w2 = queryData w ->
             queryData
               (fst (let errorMsg := errorText message in
                     if isNetworkError errorMsg
                     then (saveLocally locationId seqs w2, Rejected savedLocallyMessage)
                     else if includes errorMsg "Invalid location ID"
                             || includes errorMsg "Location not found"
                     then (w2, Rejected "Location not found. The story locations may not be initialized yet.")
                     else if includes errorMsg "Unauthorized"
                     then (w2, @Rejected UserProgress "Authentication required. Please log in again.")
                     else (w2, Rejected ("Failed to update progress: " +:+ errorMsg))))
             = queryData w).
  { intros w2 message H2. cbv zeta.
    destruct (isNetworkError _); cbn [fst].
    - destruct (saveLocally_frame locationId seqs w2) as [-> _]. exact H2.
    - destruct (_ || _); [exact H2|]. destruct (includes _ "Unauthorized"); exact H2. }
  destruct r as [result|message]; [|now apply Hcatch].
  destruct (negb _).
  - pose proof (verifyProgressSaved_frame hasPermission caller locationId 3 w1) as Hv.
    cbv zeta in Hv. destruct Hv as (_ & _ & Hq2 & _).
    destruct (verifyProgressSaved hasPermission caller locationId 3 w1) as [w2 v].
    cbn [fst] in Hq2.
    destruct v as [[|] [progress|] err]; cbn [fst]; try (apply Hcatch; congruence).
    cbn. congruence.
  - cbn. exact Hq.
Qed.

Lemma runMutationFn_queryData (locationId : string) (seqs : list N) :
  forall (retriesLeft failureCount : nat) (w : World),
    queryData (fst (runMutationFn hasPermission caller locationId seqs retriesLeft
                      failureCount w)) = queryData w.
Proof.
  induction retriesLeft as [|retriesLeft IH]; intros failureCount w; cbn [runMutationFn];
    pose proof (mutationFn_queryData locationId seqs w) as Hq;
    destruct (mutationFn hasPermission caller locationId seqs w) as [w1 [data|message]];
    cbn [fst] in *; try exact Hq.
  rewrite IH. exact Hq.
Qed.

(** X15.  A mutation that is rejected with anything but the saved-locally
    error takes the optimistic update back: once [onMutate], the retried
    mutation function and [onError] have run, the query data is again what it
    was before the mutation started. *)
Theorem mutateAsync_rolls_back (locationId : string) (seqs : list N) (w w' : World)
    (message : string) :
  executeMutation hasPermission caller locationId seqs w = (w', Rejected message) ->
  includes (errorText message) "Network error" = false ->
  includes (errorText message) "saved locally" = false ->
  queryData w' = queryData w.
Proof.
  unfold executeMutation. intros Hrun Hnet Hsaved.
  pose proof (onMutate_queryData locationId w) as Hoptimistic.
  assert (Hcontext : snd (onMutate locationId w) = queryData w).
  { unfold onMutate. destruct (queryData w) as [previous|]; [|reflexivity].
    now destruct (negb _). }
  destruct (onMutate locationId w) as [w1 context]. cbn [fst snd] in *. subst context.
  pose proof (runMutationFn_queryData locationId seqs 3 0 w1) as Hq.
  destruct (runMutationFn hasPermission caller locationId seqs 3 0 w1)
    as [w2 [data|message']]; [discriminate|].
  injection Hrun as <- <-. cbn [fst] in Hq.
  unfold onError. rewrite Hnet, Hsaved. cbn [negb andb].
  destruct (queryData w) as [previous|] eqn:Hprev; [reflexivity|].
  rewrite Hq, Hoptimistic. reflexivity.
Qed.

(** X16.  A mutation that resolves has confirmed the completion: the record
    it returns holds the location's number, is the caller's record on the
    canister, and is what the cache now holds, marked synced. *)
Theorem mutationFn_confirms (locationId : string) (seqs : list N) (w w' : World)
    (progress : UserProgress) :
  mutationFn hasPermission caller locationId seqs w = (w', Resolved progress) ->
  In (locationNumberOf locationId) (completedLocations progress)
  /\ currentOf (server w') caller = progress
  /\ localStorage w' = Some (progressData progress (now w') true)
  /\ loadProgressFromLocalStorage w' = Some progress
  /\ hasUnsyncedProgress w' = false.
Proof.
  unfold mutationFn, saveAndVerify. intros H.
  assert (Hgoal : forall w0, currentOf (server w0) caller = progress ->
            In (locationNumberOf locationId) (completedLocations progress) ->
            w' = fst (saveProgressToLocalStorage progress w0) ->
            In (locationNumberOf locationId) (completedLocations progress)
            /\ currentOf (server w') caller = progress
            /\ localStorage w' = Some (progressData progress (now w') true)
            /\ loadProgressFromLocalStorage w' = Some progress
            /\ hasUnsyncedProgress w' = false).
  { intros w0 Hcur Hin ->. cbn [saveProgressToLocalStorage fst].
    split_and!; try easy.
    apply (load_progressData _ progress (now w0) true). reflexivity. }
  destruct (actor_updateProgress hasPermission caller locationId seqs w) as [w1 r] eqn:Hcall.
  destruct r as [result|message].
  - apply actor_updateProgress_resolved in Hcall as [Hcur _].
    destruct (existsb _ (completedLocations result)) eqn:Hsaved; cbn [negb] in H.
    + injection H as <- <-. apply (Hgoal w1); [exact Hcur | | reflexivity].
      now apply (existsb_eqb_In _ (locationNumberOf locationId)).
    + pose proof (verifyProgressSaved_frame hasPermission caller locationId 3 w1) as Hv.
      cbv zeta in Hv. destruct Hv as (Hserver & _ & _ & _ & Htrue & _).
      destruct (verifyProgressSaved hasPermission caller locationId 3 w1) as [w2 v].
      cbn [fst snd] in *.
      destruct v as [[|] [found|] err]; cbn [verified verified_progress] in *.
      * injection H as <- <-. destruct (Htrue eq_refl) as ([= ->] & Hin & _).
        apply (Hgoal w2); [now rewrite Hserver | exact Hin | reflexivity].
      * destruct (Htrue eq_refl) as (Hnone & _). discriminate.
      * cbv zeta in H. destruct (isNetworkError _); [discriminate|].
        destruct (_ || _); [discriminate|].
        destruct (includes _ "Unauthorized"); discriminate.
      * cbv zeta in H. destruct (isNetworkError _); [discriminate|].
        destruct (_ || _); [discriminate|].
        destruct (includes _ "Unauthorized"); discriminate.
  - cbv zeta in H. destruct (isNetworkError _); [discriminate|].
    destruct (_ || _); [discriminate|].
    destruct (includes _ "Unauthorized"); discriminate.
Qed.

End MutationFacts.

Section ClientFacts.
Import Backend History Client Scenarios.

Variable hasPermission : Principal -> UserRole -> bool.
Variable caller : Principal.

Lemma validatedProgress_same (progress : UserProgress) :
  validatedProgress progress = progress.
Proof. now destruct progress. Qed.

(** Reconciliation leaves the network script and the clock alone. *)
Lemma syncUnsyncedProgress_net (w : World) :
  net (fst (syncUnsyncedProgress hasPermission caller w)) = net w
  /\ now (fst (syncUnsyncedProgress hasPermission caller w)) = now w.
Proof.
  unfold syncUnsyncedProgress.
  destruct (negb (hasUnsyncedProgress w)); [easy|].
  destruct (loadProgressFromLocalStorage w) as [cachedProgress|]; [|easy].
  destruct (actor_getUserProgress hasPermission caller w) as [w1 r] eqn:Hread.
  apply actor_getUserProgress_frame in Hread as (_ & _ & Hnow & Hnet & _ & _ & _).
  destruct r as [backendProgress|message]; [|easy].
  destruct (length (newLocationsOf cachedProgress backendProgress) =? 0)%nat.
  - cbn [fst]. destruct (markProgressAsSynced_frame w1) as (_ & -> & -> & _). easy.
  - destruct (syncLoop hasPermission caller (currentSequences cachedProgress)
                (newLocationsOf cachedProgress backendProgress) w1) as [w' ok] eqn:Hloop.
    apply syncLoop_spec in Hloop as (? & ? & _ & _ & _ & _ & _ & _ & _ & Hn & [Hnet' _]).
    cbn [fst]. split; congruence.
Qed.

(** X19.  Whenever the read of the progress query succeeds, the cache is
    replaced by the record read, marked synced, and that record, the
    caller's record on the canister, is returned: this holds whatever the
    cache held and whether or not the reconciliation before the read
    succeeded, so completions that were cached unsynced and could not be
    replayed are no longer in the cache. *)
Theorem useGetUserProgress_overwrites_cache (w w2 : World) (progress : UserProgress) :
  actor_getUserProgress hasPermission caller
    (fst (syncUnsyncedProgress hasPermission caller w)) = (w2, Resolved progress) ->
  exists w',
    useGetUserProgress hasPermission caller w = (w', progress)
    /\ currentOf (server w') caller = progress
    /\ localStorage w' = Some (progressData progress (now w') true)
    /\ loadProgressFromLocalStorage w' = Some progress
    /\ hasUnsyncedProgress w' = false.
Proof.
  intros Hread. unfold useGetUserProgress.
  destruct (syncUnsyncedProgress hasPermission caller w) as [w1 ok]. cbn [fst] in Hread.
  rewrite Hread, validatedProgress_same.
  apply actor_getUserProgress_frame in Hread as (_ & _ & _ & _ & Hserver & _ & Hfresh).
  eexists. split_and!; [reflexivity | | reflexivity | | reflexivity].
  - cbn. rewrite (Hfresh progress eq_refl).
    symmetry. rewrite Hserver. apply (ensureProgressInitialized_currentOf hasPermission caller).
  - apply (load_progressData _ progress (now w2) true). reflexivity.
Qed.

Lemma actor_getUserProgress_undelivered (w : World) :
  net w (length (calls w)) <> Deliver ->
  exists message,
    actor_getUserProgress hasPermission caller w
    = (record_call CallGetUserProgress false w, Rejected message).
Proof.
  intros Hnet. unfold actor_getUserProgress.
  destruct (net w (length (calls w))) as [|message|message]; [contradiction| |]; eauto.
Qed.

Lemma syncUnsyncedProgress_undelivered (w : World) :
  (forall i, net w i <> Deliver) ->
  localStorage (fst (syncUnsyncedProgress hasPermission caller w)) = localStorage w
  /\ server (fst (syncUnsyncedProgress hasPermission caller w)) = server w
  /\ queryData (fst (syncUnsyncedProgress hasPermission caller w)) = queryData w.
Proof.
  intros Hnet. unfold syncUnsyncedProgress.
  destruct (negb (hasUnsyncedProgress w)); [easy|].
  destruct (loadProgressFromLocalStorage w) as [cachedProgress|]; [|easy].
  destruct (actor_getUserProgress_undelivered w (Hnet _)) as (message & ->). easy.
Qed.

Lemma markProgressAsUnsynced_storage (w : World) :
  localStorage (markProgressAsUnsynced w) = set_synced false (now w) <$> localStorage w.
Proof.
  unfold markProgressAsUnsynced. destruct (localStorage w) as [parsed|] eqn:Hls.
  - reflexivity.
  - now rewrite Hls.
Qed.

Lemma markProgressAsUnsynced_load (w : World) :
  loadProgressFromLocalStorage (markProgressAsUnsynced w) = loadProgressFromLocalStorage w.
Proof.
  unfold loadProgressFromLocalStorage. rewrite markProgressAsUnsynced_storage.
  now destruct (localStorage w).
Qed.

Lemma markProgressAsUnsynced_others (w : World) :
  server (markProgressAsUnsynced w) = server w
  /\ queryData (markProgressAsUnsynced w) = queryData w.
Proof. unfold markProgressAsUnsynced. now destruct (localStorage w). Qed.

Lemma load_same_storage (w w' : World) :
  localStorage w' = localStorage w ->
  loadProgressFromLocalStorage w' = loadProgressFromLocalStorage w.
Proof. intros H. unfold loadProgressFromLocalStorage. now rewrite H. Qed.

(** X20.  With the canister out of reach the progress query does not fail:
    it returns the record the cache holds, marks the cache unsynced and
    leaves its record as it is; with no cache it returns the default record
    (nothing completed, three locations) and stores nothing.  The canister
    is not touched. *)
Theorem useGetUserProgress_offline (cached : UserProgress) (w : World) :
  (forall i, net w i <> Deliver) ->
  cacheHolds w cached ->
  let r := useGetUserProgress hasPermission caller w in
  snd r = cached
  /\ localStorage (fst r) = localStorage (markProgressAsUnsynced w)
  /\ loadProgressFromLocalStorage (fst r) = loadProgressFromLocalStorage w
  /\ hasUnsyncedProgress (fst r) = bool_decide (is_Some (localStorage w))
  /\ server (fst r) = server w.
Proof.
  intros Hnet Hcache. cbv zeta. unfold useGetUserProgress.
  destruct (syncUnsyncedProgress_undelivered w Hnet) as (Hls & Hserver & Hq).
  destruct (syncUnsyncedProgress_net w) as [Hnet1 Hnow].
  destruct (syncUnsyncedProgress hasPermission caller w) as [w1 ok]. cbn [fst] in *.
  destruct (actor_getUserProgress_undelivered w1) as (message & ->).
  { rewrite Hnet1. apply Hnet. }
  set (w2 := record_call CallGetUserProgress false w1).
  assert (Hls2 : localStorage w2 = localStorage w) by exact Hls.
  assert (Hnow2 : now w2 = now w) by exact Hnow.
  assert (Hserver2 : server w2 = server w) by exact Hserver.
  assert (Hq2 : queryData w2 = queryData w) by exact Hq.
  rewrite (load_same_storage w w2 Hls2).
  destruct Hcache as [[Hnone ->] | (timestamp & synced & Hsome)].
  - assert (Hload : loadProgressFromLocalStorage w = None)
      by (unfold loadProgressFromLocalStorage; now rewrite Hnone).
    rewrite Hload. cbn [fst snd].
    rewrite markProgressAsUnsynced_storage, Hnone.
    unfold hasUnsyncedProgress. rewrite Hls2, Hnone.
    split_and!; try easy. now rewrite (load_same_storage w w2 Hls2).
  - rewrite (load_progressData w cached timestamp synced Hsome). cbn [fst snd].
    destruct (markProgressAsUnsynced_others w2) as [-> _].
    rewrite markProgressAsUnsynced_load, (load_same_storage w w2 Hls2).
    rewrite !markProgressAsUnsynced_storage, Hls2, Hnow2.
    unfold hasUnsyncedProgress. rewrite markProgressAsUnsynced_storage, Hls2, Hsome.
    split_and!; try easy.
    apply (load_progressData w cached timestamp synced Hsome).
Qed.

(** X21.  Back on a healthy network, one run of the progress query heals an
    unsynced cache: for a principal holding the user role, when the canister
    resolves the cached completions it lacks, the record returned holds every
    cached completion, is the caller's record on the canister, and is what
    the cache holds afterwards, marked synced. *)
Theorem useGetUserProgress_heals (cached : UserProgress) (timestamp : N) (w : World) :
  hasPermission caller user = true ->
  (forall i, net w i = Deliver) ->
  localStorage w = Some (progressData cached timestamp false) ->
  (forall m, In m (completedLocations cached) ->
             ~ In m (completedOf (server w) caller) -> resolves caller (server w) m) ->
  exists w' progress,
    useGetUserProgress hasPermission caller w = (w', progress)
    /\ (forall m, In m (completedLocations cached) -> In m (completedLocations progress))
    /\ currentOf (server w') caller = progress
    /\ loadProgressFromLocalStorage w' = Some progress
    /\ hasUnsyncedProgress w' = false.
Proof.
  intros Hperm Hnet Hstored Hres. unfold useGetUserProgress.
  destruct (syncUnsyncedProgress_net w) as [Hnet1 _].
  destruct (syncUnsyncedProgress_healthy hasPermission caller cached timestamp w
              Hperm Hnet Hstored Hres) as (w1 & Hsync & Hall & _ & _).
  rewrite Hsync in *. cbn [fst] in Hnet1.
  unfold actor_getUserProgress, getUserProgress.
  rewrite Hnet1, Hnet, Hperm. cbn [negb].
  rewrite validatedProgress_same, (ensureProgressInitialized_currentOf hasPermission caller).
  eexists _, _. split_and!; [reflexivity | | reflexivity | | reflexivity].
  - intros m Hm. rewrite <- completedOf_currentOf. now apply Hall.
  - apply (load_progressData _ _ (now w1) true). reflexivity.
Qed.

(** *** Refetches of the progress query *)

Lemma markProgressAsUnsynced_frame (w : World) :
  net (markProgressAsUnsynced w) = net w
  /\ now (markProgressAsUnsynced w) = now w
  /\ calls (markProgressAsUnsynced w) = calls w
  /\ timers (markProgressAsUnsynced w) = timers w.
Proof. unfold markProgressAsUnsynced. now destruct (localStorage w). Qed.

(** With the canister out of reach the query function answers from the
    cache; the world it leaves differs from the one it started in by the
    failed calls and the unsynced mark. *)
Lemma useGetUserProgress_undelivered (w : World) :
  (forall i, net w i <> Deliver) ->
  exists w2,
    localStorage w2 = localStorage w /\ server w2 = server w
    /\ net w2 = net w /\ now w2 = now w
    /\ useGetUserProgress hasPermission caller w =
       match loadProgressFromLocalStorage w with
       | Some cachedProgress => (markProgressAsUnsynced w2, cachedProgress)
       | None => (w2, defaultProgress)
       end.
Proof.
  intros Hnet. unfold useGetUserProgress.
  destruct (syncUnsyncedProgress_undelivered w Hnet) as (Hls & Hserver & _).
  destruct (syncUnsyncedProgress_net w) as [Hnet1 Hnow].
  destruct (syncUnsyncedProgress hasPermission caller w) as [w1 ok]. cbn [fst] in *.
  destruct (actor_getUserProgress_undelivered w1) as (message & ->).
  { rewrite Hnet1. apply Hnet. }
  exists (record_call CallGetUserProgress false w1).
  split_and!; [exact Hls | exact Hserver | exact Hnet1 | exact Hnow |].
  now rewrite (load_same_storage w (record_call CallGetUserProgress false w1) Hls).
Qed.

(** A refetch with the canister out of reach: the query data becomes the
    cached record, or the default record when nothing can be loaded; the
    cached record itself stays as it is and is marked unsynced. *)
Lemma refetchQueries_offline (w : World) :
  (forall i, net w i <> Deliver) ->
  let w' := refetchQueries hasPermission caller w in
  server w' = server w /\ net w' = net w /\ now w' = now w
  /\ loadProgressFromLocalStorage w' = loadProgressFromLocalStorage w
  /\ queryData w' = Some (default defaultProgress (loadProgressFromLocalStorage w))
  /\ localStorage w' =
     match loadProgressFromLocalStorage w with
     | Some _ => set_synced false (now w) <$> localStorage w
     | None => localStorage w
     end.
Proof.
  intros Hnet. cbv zeta. unfold refetchQueries.
  destruct (useGetUserProgress_undelivered w Hnet) as (w2 & Hls & Hserver & Hnet2 & Hnow & ->).
  destruct (loadProgressFromLocalStorage w) as [cachedProgress|] eqn:Hload.
  - cbn [setQueryData server net now queryData localStorage].
    destruct (markProgressAsUnsynced_others w2) as [-> _].
    destruct (markProgressAsUnsynced_frame w2) as (-> & -> & _).
    unfold loadProgressFromLocalStorage at 1. cbn [setQueryData localStorage].
    fold (loadProgressFromLocalStorage (markProgressAsUnsynced w2)).
    rewrite markProgressAsUnsynced_load, (load_same_storage w w2 Hls), Hload.
    rewrite markProgressAsUnsynced_storage, Hls, Hnow. now split_and!.
  - cbn [setQueryData server net now queryData localStorage].
    unfold loadProgressFromLocalStorage at 1. cbn [setQueryData localStorage].
    fold (loadProgressFromLocalStorage w2).
    rewrite (load_same_storage w w2 Hls), Hload. now split_and!.
Qed.

(** A refetch on a delivered read, for a principal holding the user role and
    a cache with nothing to reconcile: one read, after which the query data
    and the cache are the caller's record on the canister. *)
Lemma refetchQueries_confirmed (w : World) :
  hasPermission caller user = true ->
  net w (length (calls w)) = Deliver ->
  hasUnsyncedProgress w = false ->
  refetchQueries hasPermission caller w =
    let progress := currentOf (server w) caller in
    setQueryData (Some progress)
      (set_localStorage (Some (progressData progress (now w) true))
         (record_call CallGetUserProgress true w)).
Proof.
  intros Hperm Hnet Hsynced. unfold refetchQueries, useGetUserProgress.
  rewrite (syncUnsyncedProgress_synced hasPermission caller w Hsynced).
  unfold actor_getUserProgress, getUserProgress. rewrite Hnet, Hperm. cbn [negb].
  rewrite validatedProgress_same, (ensureProgressInitialized_currentOf hasPermission caller).
  reflexivity.
Qed.

(** *** The Done button on a healthy network *)

Lemma mutationFn_delivered (locationId : string) (seqs : list N) (location : StoryLocation)
    (w : World) :
  hasPermission caller user = true ->
  net w (length (calls w)) = Deliver ->
  storyLocations (server w) !! locationId = Some location ->
  sequenceNumber location = locationNumberOf locationId ->
  outOfRange (currentOf (server w) caller) (locationNumberOf locationId) = false ->
  exists st' progress,
    In (locationNumberOf locationId) (completedLocations progress)
    /\ currentOf st' caller = progress
    /\ mutationFn hasPermission caller locationId seqs w
       = (fst (saveProgressToLocalStorage progress
                 (set_server st' (record_call (CallUpdateProgress locationId seqs) true w))),
          Resolved progress).
Proof.
  intros Hperm Hnet Hloc Hseq Hrange.
  assert (Hupdate : exists st' progress,
             updateProgress hasPermission (server w) caller locationId seqs
               = Ok (st', progress)
             /\ In (locationNumberOf locationId) (completedLocations progress)).
  { rewrite (updateProgress_known hasPermission (server w) caller locationId location seqs
               Hperm Hloc).
    cbv zeta. rewrite Hseq.
    destruct (isLocationCompleted _ _) eqn:Hdone.
    - eexists _, _. split; [reflexivity|]. now apply isLocationCompleted_In.
    - rewrite Hrange. eexists _, _. split; [reflexivity|].
      cbn [withCompletion completedLocations]. apply in_or_app. right. now left. }
  destruct Hupdate as (st' & progress & Hupdate & Hin).
  exists st', progress. split_and!; [exact Hin | |].
  - now apply (updateProgress_Ok_current hasPermission caller _ _ _ _ _ Hupdate).
  - unfold mutationFn, saveAndVerify, actor_updateProgress. rewrite Hnet, Hupdate.
    apply (existsb_eqb_In _ (locationNumberOf locationId)) in Hin. now rewrite Hin.
Qed.

(** X17.  On a healthy network, for a principal holding the user role and a
    location the canister knows under the number the client derives from its
    id, in range for the caller, pressing Done confirms at the first attempt:
    one write to the actor, then the three reads of the refetches (the one
    [onSuccess] awaits, the one [onSettled] starts, the one the popup
    awaits); the dialog closes on a success toast, two further refetches are
    scheduled 500 ms later, and the query data, the cache (marked synced) and
    the caller's record on the canister are one and the same record, which
    holds the completion. *)
Theorem handleComplete_confirms (locationId : string) (location : StoryLocation) (w : World) :
  hasPermission caller user = true ->
  (forall i, net w i = Deliver) ->
  storyLocations (server w) !! locationId = Some location ->
  sequenceNumber location = locationNumberOf locationId ->
  outOfRange (currentOf (server w) caller) (locationNumberOf locationId) = false ->
  exists w' progress,
    handleComplete hasPermission caller (Some locationId) w
      = (w', {| toast := ToastSuccess 1; closed := true |})
    /\ In (locationNumberOf locationId) (completedLocations progress)
    /\ queryData w' = Some progress
    /\ loadProgressFromLocalStorage w' = Some progress
    /\ hasUnsyncedProgress w' = false
    /\ currentOf (server w') caller = progress
    /\ calls w' = (calls w ++ (CallUpdateProgress locationId [], true)
                             :: repeat (CallGetUserProgress, true) 3)%list
    /\ timers w' = (timers w ++ [now w + 500; now w + 500])%list.
Proof.
  intros Hperm Hnet Hloc Hseq Hrange.
  destruct (onMutate_frame locationId w) as (Hls & Hnet1 & Hserver1 & Hcalls1).
  assert (Hrest : now (fst (onMutate locationId w)) = now w
                  /\ timers (fst (onMutate locationId w)) = timers w).
  { unfold onMutate. destruct (queryData w) as [previous|]; [|easy]. now destruct (negb _). }
  destruct Hrest as [Hnow1 Htimers1].
  destruct (onMutate locationId w) as [w1 context] eqn:Hmutate. cbn [fst] in *.
  destruct (mutationFn_delivered locationId [] location w1 Hperm) as
    (st' & progress & Hin & Hcur & Hfn).
  - now rewrite Hnet1.
  - now rewrite Hserver1.
  - exact Hseq.
  - now rewrite Hserver1.
  - unfold handleComplete, Retry.retryWithBackoff. cbn [Retry.retryLoop].
    unfold mutateAsync, executeMutation. rewrite Hmutate. cbn [runMutationFn]. rewrite Hfn.
    unfold onSuccess, onSettled, invalidateQueries.
    cbn [saveProgressToLocalStorage fst].
    set (w2 := set_localStorage _ (set_server st' _)).
    rewrite (refetchQueries_confirmed (setQueryData (Some progress) w2) Hperm);
      [|cbn; rewrite Hnet1; apply Hnet | reflexivity].
    cbv zeta. cbn [setQueryData server now]. subst w2. cbn [set_localStorage set_server server now].
    rewrite Hcur.
    rewrite (refetchQueries_confirmed (setTimeout 500 _) Hperm);
      [|cbn; rewrite Hnet1; apply Hnet | reflexivity].
    cbv zeta. cbn [setTimeout setQueryData set_localStorage set_server record_call server now].
    rewrite Hcur.
    rewrite (refetchQueries_confirmed (setQueryData (Some progress) _) Hperm);
      [|cbn; rewrite Hnet1; apply Hnet | reflexivity].
    cbv zeta. cbn [setTimeout setQueryData set_localStorage set_server record_call server now].
    rewrite Hcur.
    eexists _, progress. split_and!; [reflexivity | exact Hin | reflexivity | | reflexivity | exact Hcur | |].
    + apply (load_progressData _ progress (now w1) true). reflexivity.
    + cbn. rewrite Hcalls1, <- !app_assoc. reflexivity.
    + cbn. rewrite Htimers1, Hnow1, <- app_assoc. reflexivity.
Qed.

(** *** A failure that only looks like a network error *)

Lemma includes_append (prefix s sub : string) :
  includes s sub = true -> includes (prefix +:+ s) sub = true.
Proof.
  intros H. induction prefix as [|c prefix IH]; [exact H|].
  change (String c prefix +:+ s) with (String c (prefix +:+ s)).
  cbn [includes]. rewrite IH. apply orb_true_r.
Qed.

Lemma mutationFn_dropped (locationId : string) (seqs : list N) (message : string)
    (w : World) :
  net w (length (calls w)) = Drop message ->
  isNetworkError (errorText message) = false ->
  includes (errorText message) "Invalid location ID" = false ->
  includes (errorText message) "Location not found" = false ->
  includes (errorText message) "Unauthorized" = false ->
  mutationFn hasPermission caller locationId seqs w
  = (record_call (CallUpdateProgress locationId seqs) false w,
     Rejected ("Failed to update progress: " +:+ errorText message)).
Proof.
  intros Hnet Hclass H1 H2 H3.
  unfold mutationFn, saveAndVerify, actor_updateProgress.
  rewrite Hnet. cbv zeta. now rewrite Hclass, H1, H2, H3.
Qed.

(** The mutation, up to [onError], when every call is dropped with a text
    the mutation function does not take for a network failure. *)
Lemma executeMutation_dropped (locationId : string) (message : string) (w : World) :
  (forall i, net w i = Drop message) ->
  isNetworkError (errorText message) = false ->
  includes (errorText message) "Invalid location ID" = false ->
  includes (errorText message) "Location not found" = false ->
  includes (errorText message) "Unauthorized" = false ->
  exists w',
    executeMutation hasPermission caller locationId [] w
      = (w', Rejected ("Failed to update progress: " +:+ errorText message))
    /\ localStorage w' = localStorage w /\ server w' = server w /\ net w' = net w.
Proof.
  intros Hnet Hclass H1 H2 H3.
  set (keeps := fun w0 : World =>
                  localStorage w0 = localStorage w /\ server w0 = server w
                  /\ net w0 = net w).
  set (failure := "Failed to update progress: " +:+ errorText message).
  assert (Hrun : forall retriesLeft failureCount w0, keeps w0 ->
            exists w1, runMutationFn hasPermission caller locationId [] retriesLeft
                         failureCount w0 = (w1, Rejected failure) /\ keeps w1).
  { induction retriesLeft as [|retriesLeft IH]; intros failureCount w0 (Hls & Hs & Hn);
      cbn [runMutationFn];
      rewrite (mutationFn_dropped locationId [] message w0) by (rewrite ?Hn; auto).
    - eexists. split; [reflexivity|]. now split_and!.
    - apply IH. now split_and!. }
  unfold executeMutation.
  destruct (onMutate_frame locationId w) as (Hls1 & Hnet1 & Hserver1 & _).
  destruct (onMutate locationId w) as [w1 context]. cbn [fst] in *.
  destruct (Hrun 3%nat 0%nat w1) as (w2 & -> & (Hls2 & Hs2 & Hn2)); [now split_and!|].
  eexists. split; [reflexivity|]. unfold onError.
  destruct (negb _ && negb _); [|now split_and!].
  destruct context; now split_and!.
Qed.

(** X18.  The saved-locally warning does not imply a save.  When every call
    is dropped with an error text that contains ["Network error"] but none of
    the lower-case words the mutation takes for a network failure (nor a
    location or authorisation text), the completion is written nowhere: the
    canister is not reached, the record in the cache is the one it was (at
    most marked unsynced by the refetches), and the query data ends as that
    cached record, or the default record without one.  Yet the popup shows
    the saved-locally warning and closes. *)
Theorem saved_locally_warning_without_save (locationId : string) (message : string)
    (w : World) :
  (forall i, net w i = Drop message) ->
  isNetworkError (errorText message) = false ->
  includes (errorText message) "Invalid location ID" = false ->
  includes (errorText message) "Location not found" = false ->
  includes (errorText message) "Unauthorized" = false ->
  includes (errorText message) "Network error" = true ->
  exists w',
    handleComplete hasPermission caller (Some locationId) w
      = (w', {| toast := ToastWarning "Progress saved locally. Will sync when connection is restored.";
                closed := true |})
    /\ server w' = server w
    /\ loadProgressFromLocalStorage w' = loadProgressFromLocalStorage w
    /\ queryData w' = Some (default defaultProgress (loadProgressFromLocalStorage w)).
Proof.
  intros Hnet Hclass H1 H2 H3 Hlooks.
  set (keeps := fun w0 : World =>
                  server w0 = server w
                  /\ loadProgressFromLocalStorage w0 = loadProgressFromLocalStorage w
                  /\ forall i, net w0 i = Drop message).
  set (settled := fun w0 : World =>
                    keeps w0
                    /\ queryData w0
                       = Some (default defaultProgress (loadProgressFromLocalStorage w))).
  set (failure := "Failed to update progress: " +:+ errorText message).
  assert (Hmutate : forall w0, keeps w0 ->
            exists w1, mutateAsync hasPermission caller locationId [] w0
                       = (w1, Rejected failure) /\ settled w1).
  { intros w0 (Hs & Hload & Hn). unfold mutateAsync.
    destruct (executeMutation_dropped locationId message w0 Hn Hclass H1 H2 H3)
      as (w1 & -> & Hls1 & Hs1 & Hn1).
    eexists. split; [reflexivity|]. unfold onSettled, invalidateQueries.
    destruct (refetchQueries_offline w1) as (Hs2 & Hn2 & _ & Hload2 & Hq2 & _).
    { intros i. rewrite Hn1, Hn. discriminate. }
    rewrite (load_same_storage w0 w1 Hls1), Hload in Hload2, Hq2.
    split; [|exact Hq2]. split_and!; [congruence | exact Hload2 |].
    intros i. rewrite Hn2, Hn1. apply Hn. }
  assert (Hagain : forall w0, settled w0 ->
            exists w1, mutateAsync hasPermission caller locationId [] w0
                       = (w1, Rejected failure) /\ settled w1).
  { intros w0 [H0 _]. now apply Hmutate. }
  assert (Hsleep : forall delay w0, settled w0 -> settled (sleep delay w0)).
  { intros delay w0 H0. exact H0. }
  unfold handleComplete, Retry.retryWithBackoff. cbn [Retry.retryLoop].
  destruct (Hmutate w) as (w1 & -> & Hsettled1); [now split_and!|].
  cbn [Nat.ltb Nat.leb].
  destruct (Hagain (sleep (500 * 2 ^ N.of_nat 0) w1)) as (w2 & -> & Hsettled2);
    [now apply Hsleep|].
  cbn [Nat.ltb Nat.leb].
  destruct (Hagain (sleep (500 * 2 ^ N.of_nat 1) w2))
    as (w' & -> & ((Hs & Hload & _) & Hq)); [now apply Hsleep|].
  cbn [Nat.ltb Nat.leb].
  exists w'. split_and!; [|exact Hs|exact Hload|exact Hq].
  cbn [Retry.success Retry.error default from_option].
  assert (Hmsg : orElse (Datatypes.id failure) "Unknown error" = failure) by reflexivity.
  rewrite Hmsg.
  assert (Hinc : includes failure "Network error" = true)
    by (now apply includes_append).
  now rewrite Hinc.
Qed.

(** *** The Done button when every call fails at the network *)





(** *** The claims about completion under failure *)



End ClientFacts.

(** * The BigInt helpers *)

Section BigIntFacts.
Import BigIntUtils.

Lemma allDigits_string_of_uint (d : Decimal.uint) :
  allDigits (NilEmpty.string_of_uint d) = true.
Proof. induction d; cbn; try reflexivity; exact IHd. Qed.

Lemma looksNumeric_toString (n : N) : looksNumeric (toString n) = true.
Proof.
  unfold looksNumeric. rewrite toString_nonempty. cbn [negb andb].
  destruct (toString_digits n) as [-> _]. apply allDigits_string_of_uint.
Qed.

Lemma reviveItem_replaced (key : string) (n : N) :
  reviveItem (bigIntReplacer key (JsBigInt n)) = JsBigInt n.
Proof.
  cbn [bigIntReplacer reviveItem]. rewrite looksNumeric_toString.
  unfold tryBigInt. now rewrite BigInt_toString.
Qed.

(** X22.  What the replacer writes for a bigint, the reviver reads back as
    that bigint when the key contains one of the five known field names; under
    any other key the value comes back as its decimal text, not as a bigint.
    An array of bigints, whose items the replacer writes one by one, is
    restored under every key. *)
Theorem bigIntReviver_restores (key : string) (n : N) :
  (existsb (fun field => includes key field) bigIntFields = true ->
     bigIntReviver key (bigIntReplacer key (JsBigInt n)) = JsBigInt n)
  /\ (existsb (fun field => includes key field) bigIntFields = false ->
       bigIntReviver key (bigIntReplacer key (JsBigInt n)) = JsString (toString n))
  /\ (forall (numbers : list N) (itemKey : string),
        bigIntReviver key (JsArray (map (fun m => bigIntReplacer itemKey (JsBigInt m)) numbers))
        = JsArray (map JsBigInt numbers)).
Proof.
  split_and!.
  - intros Hknown. cbn [bigIntReplacer bigIntReviver].
    rewrite looksNumeric_toString, Hknown. cbn [andb].
    unfold tryBigInt. now rewrite BigInt_toString.
  - intros Hunknown. cbn [bigIntReplacer bigIntReviver].
    rewrite Hunknown. now rewrite andb_false_r.
  - intros numbers itemKey. cbn [bigIntReviver]. f_equal.
    rewrite map_map. apply map_ext. intros m. apply reviveItem_replaced.
Qed.

Lemma looksNumeric_BigInt (s : string) :
  looksNumeric s = true -> exists n, BigInt s = Some n.
Proof.
  unfold looksNumeric, BigInt. intros H. apply andb_true_iff in H as [_ Hdigits].
  assert (Huint : exists d, NilEmpty.uint_of_string s = Some d).
  { induction s as [|c s IH]; [now exists Decimal.Nil|].
    cbn [allDigits] in Hdigits. apply andb_true_iff in Hdigits as [Hc Hs].
    destruct (IH Hs) as (d & Hd). cbn [NilEmpty.uint_of_string]. rewrite Hd.
    destruct c as [[|] [|] [|] [|] [|] [|] [|] [|]]; cbn in Hc; try discriminate Hc;
      cbn; eauto. }
  destruct Huint as (d & ->). cbn. eauto.
Qed.

(** X23.  The reviver does not keep strings apart from numbers inside an
    array: every item that is a string of decimal digits becomes a bigint,
    whatever the key, while a lone string of digits under a key that contains
    none of the known field names is left a string.  All other items and
    values are returned as they are. *)
Theorem bigIntReviver_turns_digit_strings (key : string) (s : string) (items : list JsValue) :
  looksNumeric s = true ->
  (exists n,
      BigInt s = Some n
      /\ bigIntReviver key (JsArray (JsString s :: items))
         = JsArray (JsBigInt n :: map reviveItem items))
  /\ (existsb (fun field => includes key field) bigIntFields = false ->
       bigIntReviver key (JsString s) = JsString s)
  /\ (forall text b fields,
        bigIntReviver key (JsNumber text) = JsNumber text
        /\ bigIntReviver key (JsBool b) = JsBool b
        /\ bigIntReviver key JsNull = JsNull
        /\ bigIntReviver key (JsObject fields) = JsObject fields
        /\ bigIntReviver key (JsArray [JsNumber text; JsBool b; JsNull; JsObject fields])
           = JsArray [JsNumber text; JsBool b; JsNull; JsObject fields]).
Proof.
  intros Hnumeric. destruct (looksNumeric_BigInt s Hnumeric) as (n & Hn).
  split_and!.
  - exists n. split; [exact Hn|]. cbn [bigIntReviver map reviveItem].
    rewrite Hnumeric. unfold tryBigInt. now rewrite Hn.
  - intros Hunknown. cbn [bigIntReviver]. rewrite Hunknown. now rewrite andb_false_r.
  - intros text b fields. now split_and!.
Qed.

End BigIntFacts.

(** ** The further session properties on the trail scenario *)

Section MoreScenario.
Import Backend History Client Scenarios BigIntUtils.

Lemma outage_undelivered (message : string) (i : nat) : outage message i <> Deliver.
Proof. discriminate. Qed.

Lemma verifyProgressSaved_gives_up_witness :
  exists w',
    verifyProgressSaved openAccess "alice" "location_2" 3 aliceInOutage
      = (w', {| verified := false; verified_progress := None;
                verification_error := Some (orElse "Failed to fetch" "Verification failed") |})
    /\ calls w' = (calls aliceInOutage ++ repeat (CallGetUserProgress, false) 3)%list
    /\ now w' + 300 = now aliceInOutage + 300 * 2 ^ N.of_nat 3.
Proof.
  apply (verifyProgressSaved_gives_up openAccess "alice" "location_2" 3 "Failed to fetch"
           aliceInOutage).
  - intros i. reflexivity.
  - lia.
Defined.

(** The optimistic entry for location 2 is taken back when the canister
    refuses the caller. *)
Lemma mutateAsync_rolls_back_witness :
  queryData (fst (executeMutation closedAccess "alice" "location_2" [] aliceAfterFirst))
  = queryData aliceAfterFirst.
Proof.
  apply (mutateAsync_rolls_back closedAccess "alice" "location_2" [] aliceAfterFirst
           (fst (executeMutation closedAccess "alice" "location_2" [] aliceAfterFirst))
           "Authentication required. Please log in again.").
  - vm_compute. reflexivity.
  - vm_compute. reflexivity.
  - vm_compute. reflexivity.
Defined.

Lemma mutationFn_confirms_witness :
  let r := mutationFn openAccess "alice" "location_2" [] aliceAfterFirst in
  In (locationNumberOf "location_2") (completedLocations (withCompletion (withCompletion initialProgress 1 []) 2 []))
  /\ currentOf (server (fst r)) "alice" = withCompletion (withCompletion initialProgress 1 []) 2 []
  /\ localStorage (fst r)
     = Some (progressData (withCompletion (withCompletion initialProgress 1 []) 2 [])
               (now (fst r)) true)
  /\ loadProgressFromLocalStorage (fst r)
     = Some (withCompletion (withCompletion initialProgress 1 []) 2 [])
  /\ hasUnsyncedProgress (fst r) = false.
Proof.
  apply (mutationFn_confirms openAccess "alice" "location_2" [] aliceAfterFirst).
  vm_compute. reflexivity.
Defined.

Lemma handleComplete_confirms_witness :
  exists w' progress,
    handleComplete openAccess "alice" (Some "location_2") aliceAfterFirst
      = (w', {| toast := ToastSuccess 1; closed := true |})
    /\ In (locationNumberOf "location_2") (completedLocations progress)
    /\ queryData w' = Some progress
    /\ loadProgressFromLocalStorage w' = Some progress
    /\ hasUnsyncedProgress w' = false
    /\ currentOf (server w') "alice" = progress
    /\ calls w' = (calls aliceAfterFirst ++ (CallUpdateProgress "location_2" [], true)
                                          :: repeat (CallGetUserProgress, true) 3)%list
    /\ timers w' = (timers aliceAfterFirst
                      ++ [now aliceAfterFirst + 500; now aliceAfterFirst + 500])%list.
Proof.
  apply (handleComplete_confirms openAccess "alice" "location_2" location2 aliceAfterFirst).
  - reflexivity.
  - intros i. reflexivity.
  - vm_compute. reflexivity.
  - reflexivity.
  - vm_compute. reflexivity.
Defined.

(** The two scheduled refetches read the same record once more each. *)
Example scheduled_refetches_run :
  let w' := fst (handleComplete openAccess "alice" (Some "location_2") aliceAfterFirst) in
  timers w' = [1000; 1000]
  /\ queryData (runTimers openAccess "alice" w') = queryData w'
  /\ loadProgressFromLocalStorage (runTimers openAccess "alice" w')
     = loadProgressFromLocalStorage w'
  /\ server (runTimers openAccess "alice" w') = server w'
  /\ calls (runTimers openAccess "alice" w')
     = (calls w' ++ repeat (CallGetUserProgress, true) 2)%list
  /\ timers (runTimers openAccess "alice" w') = [].
Proof. vm_compute. repeat split. Qed.

Lemma saved_locally_warning_without_save_witness :
  exists w',
    handleComplete openAccess "alice" (Some "location_1") resetNetwork
      = (w', {| toast := ToastWarning "Progress saved locally. Will sync when connection is restored.";
                closed := true |})
    /\ server w' = server resetNetwork
    /\ loadProgressFromLocalStorage w' = loadProgressFromLocalStorage resetNetwork
    /\ queryData w'
       = Some (default defaultProgress (loadProgressFromLocalStorage resetNetwork)).
Proof.
  apply (saved_locally_warning_without_save openAccess "alice" "location_1"
           "Network error: connection reset" resetNetwork).
  - intros i. reflexivity.
  - vm_compute. reflexivity.
  - vm_compute. reflexivity.
  - vm_compute. reflexivity.
  - vm_compute. reflexivity.
  - vm_compute. reflexivity.
Defined.

Example reset_network_nothing_saved :
  let w' := fst (handleComplete openAccess "alice" (Some "location_1") resetNetwork) in
  localStorage w' = None
  /\ queryData w' = Some defaultProgress
  /\ completedOf (server w') "alice" = [].
Proof. vm_compute. repeat split. Qed.

(** On the flaky network the unsynced completion 2 is replayed and dropped,
    the read succeeds, and the cache is the canister's record again. *)
Lemma useGetUserProgress_overwrites_cache_witness :
  exists w',
    useGetUserProgress openAccess "alice" aliceFlaky
      = (w', withCompletion initialProgress 1 [])
    /\ currentOf (server w') "alice" = withCompletion initialProgress 1 []
    /\ localStorage w' = Some (progressData (withCompletion initialProgress 1 []) (now w') true)
    /\ loadProgressFromLocalStorage w' = Some (withCompletion initialProgress 1 [])
    /\ hasUnsyncedProgress w' = false.
Proof.
  apply (useGetUserProgress_overwrites_cache openAccess "alice" aliceFlaky
           (fst (actor_getUserProgress openAccess "alice"
                   (fst (syncUnsyncedProgress openAccess "alice" aliceFlaky))))).
  vm_compute. reflexivity.
Defined.

Example flaky_network_run :
  (completedLocations <$> loadProgressFromLocalStorage aliceFlaky) = Some [1; 2]
  /\ hasUnsyncedProgress aliceFlaky = true
  /\ snd (syncUnsyncedProgress openAccess "alice" aliceFlaky) = false
  /\ completedLocations (snd (useGetUserProgress openAccess "alice" aliceFlaky)) = [1]
  /\ drop (length (calls aliceFlaky))
       (calls (fst (useGetUserProgress openAccess "alice" aliceFlaky)))
     = [(CallGetUserProgress, true); (CallUpdateProgress "location_2" [], false);
        (CallGetUserProgress, true)].
Proof. vm_compute. repeat split. Qed.

Lemma useGetUserProgress_offline_witness :
  let r := useGetUserProgress openAccess "alice" aliceInOutage in
  snd r = withCompletion initialProgress 1 []
  /\ localStorage (fst r) = localStorage (markProgressAsUnsynced aliceInOutage)
  /\ loadProgressFromLocalStorage (fst r) = loadProgressFromLocalStorage aliceInOutage
  /\ hasUnsyncedProgress (fst r) = bool_decide (is_Some (localStorage aliceInOutage))
  /\ server (fst r) = server aliceInOutage.
Proof.
  apply (useGetUserProgress_offline openAccess "alice" (withCompletion initialProgress 1 [])
           aliceInOutage).
  - intros i. apply outage_undelivered.
  - right. exists 500, true. vm_compute. reflexivity.
Defined.

Lemma useGetUserProgress_heals_witness :
  exists w' progress,
    useGetUserProgress openAccess "alice" aliceBackOnline = (w', progress)
    /\ (forall m, In m (completedLocations
                          (locallyCompleted (withCompletion initialProgress 1 []) 2 [])) ->
                   In m (completedLocations progress))
    /\ currentOf (server w') "alice" = progress
    /\ loadProgressFromLocalStorage w' = Some progress
    /\ hasUnsyncedProgress w' = false.
Proof.
  apply (useGetUserProgress_heals openAccess "alice"
           (locallyCompleted (withCompletion initialProgress 1 []) 2 []) 12500
           aliceBackOnline).
  - reflexivity.
  - intros i. reflexivity.
  - vm_compute. reflexivity.
  - intros m [<-|[<-|[]]] Hmissing.
    + exfalso. apply Hmissing. vm_compute. now left.
    + exists location2. vm_compute. repeat split.
Defined.

Lemma bigIntReviver_turns_digit_strings_witness :
  bigIntReviver "tags" (JsArray [JsString "2024"; JsString "harbour"; JsString "007"])
  = JsArray [JsBigInt 2024; JsString "harbour"; JsBigInt 7]
  /\ bigIntReviver "title" (JsString "2024") = JsString "2024".
Proof.
  destruct (bigIntReviver_turns_digit_strings "tags" "2024"
              [JsString "harbour"; JsString "007"] eq_refl) as ((n & Hn & Harray) & _).
  destruct (bigIntReviver_turns_digit_strings "title" "2024" [] eq_refl) as (_ & Hlone & _).
  split.
  - rewrite Harray. vm_compute in Hn. injection Hn as <-. reflexivity.
  - apply Hlone. reflexivity.
Defined.

Example bigIntReviver_known_key :
  bigIntReviver "sequenceNumber" (bigIntReplacer "sequenceNumber" (JsBigInt 9007199254740993))
  = JsBigInt 9007199254740993
  /\ bigIntReviver "timestamp" (bigIntReplacer "timestamp" (JsBigInt 9007199254740993))
     = JsString "9007199254740993".
Proof. vm_compute. split; reflexivity. Qed.

(** *** Completion under an outage *)






End MoreScenario.
